(** * A DDPM on MNIST ([train.py]): noise schedule, residual block,
      noise-prediction network, training loss and reverse sampling.

    Tensor arithmetic is read in the real numbers: a float32 tensor is a
    list of [R], [torch.sqrt], [torch.log] and [exp] are [sqrt], [ln] and
    [exp] of the Standard Library, and rounding is not modelled.  The step
    count [T] is a natural number; for [T = 0] the source divides by zero,
    and the statements below take [T >= 1] wherever the quotient is used.
    Placement on a device, [detach], the conversion to numpy arrays and
    the progress output do not change values and are left out.  The
    layers of the network and the random generator belong to the tensor
    library: the network is a function given to [DDPM], the generator a
    state with two draws, and the layers are read on shapes. *)

From Stdlib Require Import Reals Lra Lia List Arith Bool.
Import ListNotations.
Local Open Scope R_scope.

(** ** One-dimensional tensors *)

(** [torch.arange(0, n, dtype=torch.float32)]. *)
Definition arange (n : nat) : list R := map INR (seq 0 n).

(** Running sum, left to right, starting from [acc]. *)
Fixpoint cumsum_from (acc : R) (l : list R) : list R :=
  match l with
  | [] => []
  | x :: l' => (acc + x) :: cumsum_from (acc + x) l'
  end.

(** [torch.cumsum(l, dim=0)]. *)
Definition cumsum (l : list R) : list R := cumsum_from 0 l.

(** Elementwise binary operation on two tensors of one length. *)
Fixpoint map2 {A B C : Type} (f : A -> B -> C) (a : list A) (b : list B) : list C :=
  match a, b with
  | x :: a', y :: b' => f x y :: map2 f a' b'
  | _, _ => []
  end.

(** ** [ddpm_schedules] *)

(** The dictionary [ddpm_schedules] returns, one field per key. *)
Record schedules : Type := mk_schedules {
  alpha_t : list R;
  oneover_sqrta : list R;
  sqrt_beta_t : list R;
  alphabar_t : list R;
  sqrtab : list R;
  sqrtmab : list R;
  mab_over_sqrtmab : list R
}.

(** The local [beta_t] of [ddpm_schedules]:
    [(beta2 - beta1) * arange(0, T + 1) / T + beta1]. *)
Definition beta_t (beta1 beta2 : R) (T : nat) : list R :=
  map (fun a => (beta2 - beta1) * a / INR T + beta1) (arange (T + 1)).

(** [ddpm_schedules(beta1, beta2, T)]; [None] is the [AssertionError] of
    [assert beta1 < beta2 < 1.0]. *)
Definition ddpm_schedules (beta1 beta2 : R) (T : nat) : option schedules :=
  if Rlt_dec beta1 beta2 then
    if Rlt_dec beta2 1 then
      let beta_t := beta_t beta1 beta2 T in
      let sqrt_beta_t := map sqrt beta_t in
      let alpha_t := map (fun b => 1 - b) beta_t in
      let log_alpha_t := map ln alpha_t in
      let alphabar_t := map exp (cumsum log_alpha_t) in
      let sqrtab := map sqrt alphabar_t in
      let oneover_sqrta := map (fun a => 1 / sqrt a) alpha_t in
      let sqrtmab := map (fun ab => sqrt (1 - ab)) alphabar_t in
      let mab_over_sqrtmab_inv := map2 (fun a s => (1 - a) / s) alpha_t sqrtmab in
      Some {| alpha_t := alpha_t;
              oneover_sqrta := oneover_sqrta;
              sqrt_beta_t := sqrt_beta_t;
              alphabar_t := alphabar_t;
              sqrtab := sqrtab;
              sqrtmab := sqrtmab;
              mab_over_sqrtmab := mab_over_sqrtmab_inv |}
    else None
  else None.

(** The entries of the schedule in closed form, by index. *)
Definition beta_at (beta1 beta2 : R) (T t : nat) : R :=
  (beta2 - beta1) * INR t / INR T + beta1.

Definition alpha_at (beta1 beta2 : R) (T t : nat) : R :=
  1 - beta_at beta1 beta2 T t.

(** Sum of [ln alpha_k] for [k = 0 .. t]. *)
Fixpoint log_alpha_sum (beta1 beta2 : R) (T t : nat) : R :=
  match t with
  | O => ln (alpha_at beta1 beta2 T 0)
  | S t' => log_alpha_sum beta1 beta2 T t' + ln (alpha_at beta1 beta2 T t)
  end.

(** Product of [alpha_k] for [k = 0 .. t]: the cumulative product. *)
Fixpoint alpha_prod (beta1 beta2 : R) (T t : nat) : R :=
  match t with
  | O => alpha_at beta1 beta2 T 0
  | S t' => alpha_prod beta1 beta2 T t' * alpha_at beta1 beta2 T t
  end.

(** ** Failure *)

(** A Python exception is [None]. *)
Definition obind {A B : Type} (o : option A) (k : A -> option B) : option B :=
  match o with
  | Some a => k a
  | None => None
  end.

Notation "x <- e ;; k" := (obind e (fun x => k))
  (at level 61, e at next level, right associativity).

(** ** Four-dimensional tensors

    A tensor of shape (N, C, H, W) is the list of its N samples, each
    sample the list of its C*H*W entries. *)

Definition batch : Type := list (list R).

(** [x] has [n] samples of [m] entries each. *)
Definition well_shaped (n m : nat) (x : batch) : Prop :=
  length x = n /\ Forall (fun row => length row = m) x.

(** [a] and [b] have the same number of samples, each of the same number
    of entries. *)
Definition same_shape (a b : batch) : Prop :=
  Forall2 (fun r r' => length r = length r') a b.

(** Pairs two lists of one length; lists of different lengths do not line
    up (the tensor library raises, or broadcasts, which is not modelled). *)
Fixpoint zip_with {A B C : Type} (f : A -> B -> option C)
         (a : list A) (b : list B) : option (list C) :=
  match a, b with
  | [], [] => Some []
  | x :: a', y :: b' =>
      match f x y, zip_with f a' b' with
      | Some z, Some r => Some (z :: r)
      | _, _ => None
      end
  | _, _ => None
  end.

(** Elementwise operation on two tensors of one shape. *)
Definition tzip (f : R -> R -> R) (a b : batch) : option batch :=
  zip_with (zip_with (fun u v => Some (f u v))) a b.

(** [a + b] and [a - b]. *)
Definition tadd : batch -> batch -> option batch := tzip Rplus.
Definition tsub : batch -> batch -> option batch := tzip Rminus.

(** [c * x], [x * c], [x / c] and [x + c] for a scalar [c]. *)
Definition smul (c : R) (x : batch) : batch := map (map (fun v => c * v)) x.
Definition muls (x : batch) (c : R) : batch := map (map (fun v => v * c)) x.
Definition divs (x : batch) (c : R) : batch := map (map (fun v => v / c)) x.
Definition adds (x : batch) (c : R) : batch := map (map (fun v => v + c)) x.

(** [buf[idx]] for a tensor of indices; an index out of range raises. *)
Fixpoint gather (buf : list R) (idx : list nat) : option (list R) :=
  match idx with
  | [] => Some []
  | i :: idx' =>
      match nth_error buf i, gather buf idx' with
      | Some v, Some vs => Some (v :: vs)
      | _, _ => None
      end
  end.

(** [c[:, None, None, None] * x]: sample [k] of [x] times [c[k]]. *)
Definition row_scale (c : list R) (x : batch) : option batch :=
  zip_with (fun ck row => Some (map (fun v => ck * v) row)) c x.

(** Sum of all entries, and their number. *)
Definition tsum (x : batch) : R := fold_right Rplus 0 (concat x).
Definition numel (x : batch) : nat := length (concat x).

(** [nn.MSELoss()(input, target)]: the mean of [(input - target)^2]. *)
Definition loss_mse (input target : batch) : option R :=
  d <- tsub input target ;;
  Some (tsum (map (map (fun v => v * v)) d) / INR (numel d)).

(** ** [ResidualConvBlock]

    [conv1] and [conv2] are the two [nn.Sequential] stacks (convolution,
    batch norm, GELU) with their learned weights. *)
Record ResidualConvBlock : Type := mk_ResidualConvBlock {
  same_channels : bool;
  is_res : bool;
  conv1 : batch -> option batch;
  conv2 : batch -> option batch
}.

(** [ResidualConvBlock.__init__]. *)
Definition ResidualConvBlock_init (in_channels out_channels : nat) (is_res : bool)
           (conv1 conv2 : batch -> option batch) : ResidualConvBlock :=
  {| same_channels := Nat.eqb in_channels out_channels;
     is_res := is_res;
     conv1 := conv1;
     conv2 := conv2 |}.

(** [ResidualConvBlock.forward]. *)
Definition ResidualConvBlock_forward (self : ResidualConvBlock) (x : batch) : option batch :=
  if is_res self then
    x1 <- conv1 self x ;;
    x2 <- conv2 self x1 ;;
    out <- (if same_channels self then tadd x x2 else tadd x1 x2) ;;
    Some (divs out (1414 / 1000))
  else
    x1 <- conv1 self x ;;
    x2 <- conv2 self x1 ;;
    Some x2.

(** ** [DDPM] *)

(** The attributes of a [DDPM]: the network, the seven registered buffers,
    [n_T] and [drop_prob].  The network takes the image batch and one
    time value per sample. *)
Record DDPM : Type := mk_DDPM {
  nn_model : batch -> list R -> option batch;
  buffers : schedules;
  n_T : nat;
  drop_prob : R
}.

(** [DDPM.__init__(nn_model, betas, n_T, device, drop_prob)]. *)
Definition DDPM_init (nn_model : batch -> list R -> option batch) (betas : R * R)
           (n_T : nat) (drop_prob : R) : option DDPM :=
  s <- ddpm_schedules (fst betas) (snd betas) n_T ;;
  Some {| nn_model := nn_model; buffers := s; n_T := n_T; drop_prob := drop_prob |}.

(** The test of [DDPM.sample] for keeping a snapshot at timestep [i]. *)
Definition keeps_snapshot (n_T i : nat) : bool :=
  (i mod 20 =? 0)%nat || (i =? n_T)%nat || (i <? 8)%nat.

(** The timesteps of the loop of [DDPM.sample]: [range(n_T, 0, -1)]. *)
Definition timesteps (n_T : nat) : list nat := rev (seq 1 n_T).

(** Entries of an image of shape [size] = (C, H, W). *)
Definition size_numel (size : nat * nat * nat) : nat :=
  let '(c, h, w) := size in (c * h * w)%nat.

Section Random.

(** The state of the random generator and its two draws:
    [randint low high n] is [torch.randint(low, high, (n,))] for
    [low < high], and [randn n m] a standard normal tensor of [n] samples
    of [m] entries. *)
Variable rng : Type.
Variable randint : nat -> nat -> nat -> rng -> list nat * rng.
Variable randn : nat -> nat -> rng -> batch * rng.

(** Computations that draw random numbers and may raise. *)
Definition Rand (A : Type) : Type := rng -> option (A * rng).

Definition ret {A : Type} (a : A) : Rand A := fun g => Some (a, g).

Definition bind {A B : Type} (c : Rand A) (k : A -> Rand B) : Rand B :=
  fun g => match c g with
           | Some (a, g') => k a g'
           | None => None
           end.

Definition lift {A : Type} (o : option A) : Rand A :=
  fun g => match o with
           | Some a => Some (a, g)
           | None => None
           end.

Notation "x <~ c ;; k" := (bind c (fun x => k))
  (at level 61, c at next level, right associativity).

(** [torch.randint(low, high, (n,))]; an empty range raises. *)
Definition torch_randint (low high n : nat) : Rand (list nat) :=
  fun g => if (low <? high)%nat then Some (randint low high n g) else None.

(** [torch.randn(n, *size)] with [m] entries per sample. *)
Definition torch_randn (n m : nat) : Rand batch :=
  fun g => Some (randn n m g).

(** [torch.randn_like(x)]. *)
Definition torch_randn_like (x : batch) : Rand batch :=
  torch_randn (length x) (length (hd [] x)).

(** [DDPM.forward(x)]. *)
Definition DDPM_forward (self : DDPM) (x : batch) : Rand R :=
  _ts <~ torch_randint 1 (n_T self + 1) (length x) ;;
  noise <~ torch_randn_like x ;;
  a <~ lift (gather (sqrtab (buffers self)) _ts) ;;
  b <~ lift (gather (sqrtmab (buffers self)) _ts) ;;
  ax <~ lift (row_scale a x) ;;
  bn <~ lift (row_scale b noise) ;;
  x_t <~ lift (tadd ax bn) ;;
  pred <~ lift (nn_model self x_t (map (fun t => INR t / INR (n_T self)) _ts)) ;;
  lift (loss_mse noise pred).

(** One turn of the loop of [DDPM.sample], from [x_i] to the new [x_i];
    [m] is the number of entries of one sample. *)
Definition sample_step (self : DDPM) (n_sample m i : nat) (x_i : batch) : Rand batch :=
  let t_is := repeat (INR i / INR (n_T self)) n_sample in
  let x_i := x_i ++ x_i in
  let t_is := t_is ++ t_is in
  z <~ (if (1 <? i)%nat
        then (z <~ torch_randn n_sample m ;; ret (Some z))
        else ret None) ;;
  out <~ lift (nn_model self x_i t_is) ;;
  let eps := firstn n_sample out in
  let x_i := firstn n_sample x_i in
  oneover <~ lift (nth_error (oneover_sqrta (buffers self)) i) ;;
  mab <~ lift (nth_error (mab_over_sqrtmab (buffers self)) i) ;;
  sqrt_beta <~ lift (nth_error (sqrt_beta_t (buffers self)) i) ;;
  d <~ lift (tsub x_i (muls eps mab)) ;;
  match z with
  | Some z => lift (tadd (smul oneover d) (smul sqrt_beta z))
  | None => ret (adds (smul oneover d) (sqrt_beta * 0))
  end.

(** The loop of [DDPM.sample] over the timesteps [steps], with the
    snapshots kept so far. *)
Fixpoint sample_loop (self : DDPM) (n_sample m : nat) (steps : list nat)
         (x_i : batch) (x_i_store : list batch) : Rand (batch * list batch) :=
  match steps with
  | [] => ret (x_i, x_i_store)
  | i :: steps' =>
      x_i <~ sample_step self n_sample m i x_i ;;
      let x_i_store :=
        if keeps_snapshot (n_T self) i then x_i_store ++ [x_i] else x_i_store in
      sample_loop self n_sample m steps' x_i x_i_store
  end.

(** [DDPM.sample(n_sample, size, device)] for an image shape
    [size] = (C, H, W). *)
Definition DDPM_sample (self : DDPM) (n_sample : nat) (size : nat * nat * nat)
  : Rand (batch * list batch) :=
  x_i <~ torch_randn n_sample (size_numel size) ;;
  sample_loop self n_sample (size_numel size) (timesteps (n_T self)) x_i [].

(** *** The two operations as the specification words them

    The coefficients are the closed forms [alpha_at], [alpha_prod] and
    [beta_at] of a schedule with endpoints [beta1], [beta2] and [T]
    steps; [net] is the network. *)

(** The corrupted sample: sample [k] is
    [sqrt(alphabar_t) * x0 + sqrt(1 - alphabar_t) * noise] at [t = ts[k]]. *)
Definition spec_corrupt (beta1 beta2 : R) (T : nat) (ts : list nat)
           (x0 noise : batch) : batch :=
  map2 (fun t rows =>
          map2 (fun x e => sqrt (alpha_prod beta1 beta2 T t) * x
                           + sqrt (1 - alpha_prod beta1 beta2 T t) * e)
               (fst rows) (snd rows))
       ts (combine x0 noise).

(** The mean squared error between two tensors of one shape, written
    out: the squared differences of the paired entries, summed over every
    sample and every entry, divided by the number of entries. *)
Definition mean_squared_error (a b : batch) : R :=
  fold_right Rplus 0
    (map (fun p => (fst p - snd p) * (fst p - snd p))
         (combine (concat a) (concat b)))
  / INR (length (concat a)).

(** The loss of the training step once [ts] and [noise] are drawn: the
    mean squared error between the noise and the network's prediction
    at the corrupted sample and the normalised timesteps. *)
Definition spec_loss (net : batch -> list R -> option batch) (beta1 beta2 : R)
           (T : nat) (ts : list nat) (x0 noise : batch) : option R :=
  pred <- net (spec_corrupt beta1 beta2 T ts x0 noise)
              (map (fun t => INR t / INR T) ts) ;;
  Some (mean_squared_error noise pred).

(** The update of one sampling step:
    [(x - eps * (1 - alpha_i) / sqrt(1 - alphabar_i)) / sqrt(alpha_i)
     + sqrt(beta_i) * z]. *)
Definition spec_update (beta1 beta2 : R) (T i : nat) (x eps z : batch) : option batch :=
  u <- tzip (fun xv ev =>
               (xv - ev * ((1 - alpha_at beta1 beta2 T i)
                           / sqrt (1 - alpha_prod beta1 beta2 T i)))
               / sqrt (alpha_at beta1 beta2 T i)) x eps ;;
  tzip (fun uv zv => uv + sqrt (beta_at beta1 beta2 T i) * zv) u z.

(** The zero tensor of the shape of [x]. *)
Definition zeros_like (x : batch) : batch := map (map (fun _ => 0)) x.

(** One step of sampling at timestep [i]: fresh noise [z] (zero at the
    last step), the network queried at [(x, i/T)], the update. *)
Definition spec_step (net : batch -> list R -> option batch) (beta1 beta2 : R)
           (T n_sample m i : nat) (x : batch) : Rand batch :=
  z <~ (if (1 <? i)%nat then torch_randn n_sample m else ret (zeros_like x)) ;;
  eps <~ lift (net x (repeat (INR i / INR T) n_sample)) ;;
  lift (spec_update beta1 beta2 T i x eps z).

(** Sampling from timestep [i] down to 1. *)
Fixpoint spec_sample_from (net : batch -> list R -> option batch) (beta1 beta2 : R)
         (T n_sample m i : nat) (x : batch) : Rand batch :=
  match i with
  | O => ret x
  | S i' =>
      x' <~ spec_step net beta1 beta2 T n_sample m i x ;;
      spec_sample_from net beta1 beta2 T n_sample m i' x'
  end.

Definition spec_sample (net : batch -> list R -> option batch) (beta1 beta2 : R)
           (T n_sample m : nat) : Rand batch :=
  x <~ torch_randn n_sample m ;;
  spec_sample_from net beta1 beta2 T n_sample m T x.

(** Every state of the sampling loop: the pairs [(i, x_i)] of a timestep
    and the batch after its update, in the order of the loop. *)
Fixpoint sample_states (self : DDPM) (n_sample m : nat) (steps : list nat)
         (x_i : batch) : Rand (list (nat * batch)) :=
  match steps with
  | [] => ret []
  | i :: steps' =>
      x_i <~ sample_step self n_sample m i x_i ;;
      rest <~ sample_states self n_sample m steps' x_i ;;
      ret ((i, x_i) :: rest)
  end.

(** The snapshots a rule [keep] selects from the states of the loop. *)
Definition snapshots_of (keep : nat -> bool) (states : list (nat * batch)) : list batch :=
  map snd (filter (fun s => keep (fst s)) states).

End Random.

Arguments ret {rng A} a.
Arguments bind {rng A B} c k.
Arguments lift {rng A} o.

(** The cadence of the snapshots as the specification words it: every
    20th step, the first step, and the final 8 steps of the loop, which
    are the timesteps 8, 7, ..., 1. *)
Definition spec_keeps_snapshot (T i : nat) : bool :=
  (i mod 20 =? 0)%nat || (i =? T)%nat || (i <=? 8)%nat.

(** ** Shapes

    The same code read on shapes alone: a tensor is the list of its
    dimensions, a layer the shape it returns for the shape it is given,
    after the tensor library's documentation, and [None] where it raises.
    Layers take batched, four-dimensional input. *)
Module Shape.

Definition shape : Type := list nat.

Definition numel (s : shape) : nat := fold_right Nat.mul 1%nat s.

(** Broadcasting of two shapes, aligned at their last dimension. *)
Fixpoint broadcast_rev (a b : list nat) : option (list nat) :=
  match a, b with
  | [], _ => Some b
  | _, [] => Some a
  | x :: a', y :: b' =>
      r <- broadcast_rev a' b' ;;
      if (x =? y)%nat then Some (x :: r)
      else if (x =? 1)%nat then Some (y :: r)
      else if (y =? 1)%nat then Some (x :: r)
      else None
  end.

Definition broadcast (a b : shape) : option shape :=
  r <- broadcast_rev (rev a) (rev b) ;; Some (rev r).

(** [x.repeat] with the repeat counts [reps]. *)
Definition trepeat (x : shape) (reps : list nat) : option shape :=
  if (length reps <? length x)%nat then None
  else Some (map2 Nat.mul reps (repeat 1%nat (length reps - length x) ++ x)).

(** [x[:n]]. *)
Definition slice0 (n : nat) (x : shape) : option shape :=
  match x with
  | [] => None
  | d :: r => Some (Nat.min n d :: r)
  end.

(** [x[i]] for an integer [i]. *)
Definition index0 (i : nat) (x : shape) : option shape :=
  match x with
  | [] => None
  | d :: r => if (i <? d)%nat then Some r else None
  end.

(** [x.view(-1, *rest)] of a contiguous tensor: a shape says nothing of
    strides, and [view] raises on a tensor whose memory layout does not
    fit the new shape (a transposed one, say).  The tensors that reach
    the [view] of this program are contiguous. *)
Definition view_infer (x : shape) (rest : list nat) : option shape :=
  if (numel rest =? 0)%nat then None
  else if (numel x mod numel rest =? 0)%nat then Some (numel x / numel rest :: rest)%nat
  else None.

(** Equality of two shapes. *)
Fixpoint shape_eqb (a b : shape) : bool :=
  match a, b with
  | [], [] => true
  | x :: a', y :: b' => (x =? y)%nat && shape_eqb a' b'
  | _, _ => false
  end.

(** [torch.cat((a, b), 1)]. *)
Definition cat1 (a b : shape) : option shape :=
  match a, b with
  | n :: c :: r, n' :: c' :: r' =>
      if (n =? n')%nat && shape_eqb r r' then Some (n :: (c + c')%nat :: r)
      else None
  | _, _ => None
  end.

(** [nn.Conv2d(cin, cout, k, s, p)]. *)
Definition Conv2d (cin cout k s p : nat) (x : shape) : option shape :=
  match x with
  | [n; c; h; w] =>
      if (c =? cin)%nat && (0 <? s)%nat && (k <=? h + 2 * p)%nat && (k <=? w + 2 * p)%nat
      then Some [n; cout; (h + 2 * p - k) / s + 1; (w + 2 * p - k) / s + 1]%nat
      else None
  | _ => None
  end.

(** [nn.ConvTranspose2d(cin, cout, k, s)]. *)
Definition ConvTranspose2d (cin cout k s : nat) (x : shape) : option shape :=
  match x with
  | [n; c; h; w] =>
      if (c =? cin)%nat && (0 <? s)%nat && (0 <? h)%nat && (0 <? w)%nat
      then Some [n; cout; (h - 1) * s + k; (w - 1) * s + k]%nat
      else None
  | _ => None
  end.

(** [nn.BatchNorm2d(c)] on a batch with more than one value per channel
    (N * H * W > 1).  In training mode the layer also raises on a batch
    with a single value per channel; the statements on this layer keep
    to batches with more. *)
Definition BatchNorm2d (c : nat) (x : shape) : option shape :=
  match x with
  | [n; c'; h; w] => if (c' =? c)%nat then Some x else None
  | _ => None
  end.

(** [nn.GroupNorm(groups, c)]. *)
Definition GroupNorm (groups c : nat) (x : shape) : option shape :=
  match x with
  | n :: c' :: r =>
      if (c' =? c)%nat && (0 <? groups)%nat && (c mod groups =? 0)%nat then Some x else None
  | _ => None
  end.

(** [nn.GELU()] and [nn.ReLU()]. *)
Definition GELU (x : shape) : option shape := Some x.
Definition ReLU (x : shape) : option shape := Some x.

(** [nn.MaxPool2d(k)] and [nn.AvgPool2d(k)]: the stride is the kernel. *)
Definition Pool2d (k : nat) (x : shape) : option shape :=
  match x with
  | [n; c; h; w] =>
      if (0 <? k)%nat && (k <=? h)%nat && (k <=? w)%nat
      then Some [n; c; (h - k) / k + 1; (w - k) / k + 1]%nat
      else None
  | _ => None
  end.
Definition MaxPool2d : nat -> shape -> option shape := Pool2d.
Definition AvgPool2d : nat -> shape -> option shape := Pool2d.

(** [nn.Linear(i, o)]: on the last dimension. *)
Definition Linear (i o : nat) (x : shape) : option shape :=
  match rev x with
  | d :: r => if (d =? i)%nat then Some (rev (o :: r)) else None
  | [] => None
  end.

(** [ResidualConvBlock(in_channels, out_channels, is_res).forward(x)]. *)
Definition ResidualConvBlock (in_channels out_channels : nat) (is_res : bool)
           (x : shape) : option shape :=
  let same_channels := (in_channels =? out_channels)%nat in
  let conv1 x :=
    x <- Conv2d in_channels out_channels 3 1 1 x ;;
    x <- BatchNorm2d out_channels x ;;
    GELU x in
  let conv2 x :=
    x <- Conv2d out_channels out_channels 3 1 1 x ;;
    x <- BatchNorm2d out_channels x ;;
    GELU x in
  if is_res then
    x1 <- conv1 x ;;
    x2 <- conv2 x1 ;;
    out <- (if same_channels then broadcast x x2 else broadcast x1 x2) ;;
    broadcast out []
  else
    x1 <- conv1 x ;;
    x2 <- conv2 x1 ;;
    Some x2.

(** [UnetDown(in_channels, out_channels).forward(x)]. *)
Definition UnetDown (in_channels out_channels : nat) (x : shape) : option shape :=
  x <- ResidualConvBlock in_channels out_channels false x ;;
  MaxPool2d 2 x.

(** [UnetUp(in_channels, out_channels).forward(x, skip)]. *)
Definition UnetUp (in_channels out_channels : nat) (x skip : shape) : option shape :=
  x <- cat1 x skip ;;
  x <- ConvTranspose2d in_channels out_channels 2 2 x ;;
  x <- ResidualConvBlock out_channels out_channels false x ;;
  ResidualConvBlock out_channels out_channels false x.

(** [EmbedFC(input_dim, emb_dim).forward(x)]. *)
Definition EmbedFC (input_dim emb_dim : nat) (x : shape) : option shape :=
  x <- view_infer x [input_dim] ;;
  x <- Linear input_dim emb_dim x ;;
  x <- GELU x ;;
  Linear emb_dim emb_dim x.

(** [Unet(in_channels, n_feat).forward(x, t)]. *)
Definition Unet_forward (in_channels n_feat : nat) (x t : shape) : option shape :=
  x <- ResidualConvBlock in_channels n_feat true x ;;
  down1 <- UnetDown n_feat n_feat x ;;
  down2 <- UnetDown n_feat (2 * n_feat) down1 ;;
  hiddenvec <- (v <- AvgPool2d 7 down2 ;; GELU v) ;;
  temb1 <- (e <- EmbedFC 1 (2 * n_feat) t ;; view_infer e [n_feat * 2; 1; 1]%nat) ;;
  temb2 <- (e <- EmbedFC 1 (1 * n_feat) t ;; view_infer e [n_feat; 1; 1]%nat) ;;
  up1 <- (u <- ConvTranspose2d (2 * n_feat) (2 * n_feat) 7 7 hiddenvec ;;
          u <- GroupNorm 8 (2 * n_feat) u ;;
          ReLU u) ;;
  a1 <- broadcast up1 temb1 ;;
  up2 <- UnetUp (4 * n_feat) n_feat a1 down2 ;;
  a2 <- broadcast up2 temb2 ;;
  up3 <- UnetUp (2 * n_feat) n_feat a2 down1 ;;
  c <- cat1 up3 x ;;
  o <- Conv2d (2 * n_feat) n_feat 3 1 1 c ;;
  o <- GroupNorm 8 n_feat o ;;
  o <- ReLU o ;;
  Conv2d n_feat in_channels 3 1 1 o.

Section Sample.

(** The shape the network returns for an image and a time tensor. *)
Variable nn_model : shape -> shape -> option shape.

(** One turn of the loop of [DDPM.sample]; the buffers have [n_T + 1]
    entries. *)
Definition sample_step (n_T n_sample : nat) (size : shape) (i : nat) (x_i : shape)
  : option shape :=
  t_is <- trepeat [1%nat] [n_sample; 1; 1; 1]%nat ;;
  x_i <- trepeat x_i [2; 1; 1; 1]%nat ;;
  t_is <- trepeat t_is [2; 1; 1; 1]%nat ;;
  let z := if (1 <? i)%nat then n_sample :: size else [] in
  out <- nn_model x_i t_is ;;
  eps <- slice0 n_sample out ;;
  x_i <- slice0 n_sample x_i ;;
  oneover <- index0 i [(n_T + 1)%nat] ;;
  mab <- index0 i [(n_T + 1)%nat] ;;
  sqrt_beta <- index0 i [(n_T + 1)%nat] ;;
  e <- broadcast eps mab ;;
  d <- broadcast x_i e ;;
  l <- broadcast oneover d ;;
  r <- broadcast sqrt_beta z ;;
  broadcast l r.

Fixpoint sample_loop (n_T n_sample : nat) (size : shape) (steps : list nat)
         (x_i : shape) (x_i_store : list shape) : option (shape * list shape) :=
  match steps with
  | [] => Some (x_i, x_i_store)
  | i :: steps' =>
      x_i <- sample_step n_T n_sample size i x_i ;;
      let x_i_store :=
        if keeps_snapshot n_T i then x_i_store ++ [x_i] else x_i_store in
      sample_loop n_T n_sample size steps' x_i x_i_store
  end.

(** [DDPM.sample(n_sample, size, device)]: the shape of the final batch
    and the shapes of the snapshots, in order. *)
Definition DDPM_sample (n_T n_sample : nat) (size : shape) : option (shape * list shape) :=
  sample_loop n_T n_sample size (timesteps n_T) (n_sample :: size) [].

End Sample.

End Shape.

(** ** [train_mnist]

    The arithmetic of the training driver: the learning rate of an
    epoch, the running loss shown on the progress bar, and the reads of
    [x_gen_store] for the figure of the sampling trajectory.  Loading the
    data, the optimizer and the files written are left to the libraries. *)

(** [lrate*(1-ep/n_epoch)]. *)
Definition learning_rate (lrate : R) (n_epoch ep : nat) : R :=
  lrate * (1 - INR ep / INR n_epoch).

(** One update of [loss_ema] with the loss of a batch. *)
Definition update_loss_ema (loss_ema : option R) (loss : R) : option R :=
  match loss_ema with
  | None => Some loss
  | Some e => Some (95 / 100 * e + 5 / 100 * loss)
  end.

(** [loss_ema] after the batches of one epoch, from [None]. *)
Definition epoch_loss_ema (losses : list R) : option R :=
  fold_left update_loss_ema losses None.

(** [loss_ema] written out, in the real-number reading of its doubles:
    after the losses [l0; l1; ...; lk] the first loss weighs 0.95^k and a
    later loss 0.05 * 0.95^j, for the [j] batches that follow it. *)
Fixpoint later_losses_weighted (losses : list R) : R :=
  match losses with
  | [] => 0
  | l :: rest => 5 / 100 * (95 / 100) ^ length rest * l + later_losses_weighted rest
  end.

Definition weighted_losses (losses : list R) : option R :=
  match losses with
  | [] => None
  | l0 :: rest => Some ((95 / 100) ^ length rest * l0 + later_losses_weighted rest)
  end.

(** Runs [f] over a list, raising where [f] does. *)
Fixpoint omap {A B : Type} (f : A -> option B) (l : list A) : option (list B) :=
  match l with
  | [] => Some []
  | a :: l' =>
      b <- f a ;;
      bs <- omap f l' ;;
      Some (b :: bs)
  end.

(** [x_gen_store[k, 0]] for an index [k >= 0]; [IndexError] is [None]. *)
Definition store_at (x_gen_store : list batch) (k : nat) : option (list R) :=
  s <- nth_error x_gen_store k ;;
  nth_error s 0.

(** [x_gen_store[-1, 0]]. *)
Definition store_last (x_gen_store : list batch) : option (list R) :=
  s <- nth_error x_gen_store (length x_gen_store - 1) ;;
  nth_error s 0.

(** The eight images of the trajectory figure:
    for [j] in [range(8)], [x_gen_store[-1, 0]] if [j == 7] and
    [x_gen_store[4*j + 4, 0]] otherwise. *)
Definition trajectory_reads (x_gen_store : list batch) : option (list (list R)) :=
  omap (fun j => if (j =? 7)%nat then store_last x_gen_store
                 else store_at x_gen_store (4 * j + 4))
       (seq 0 8).

(** ** A generator and a network for the examples

    [counting_randint] and [counting_randn] stand for the generator in
    the examples: the state is a counter, the integers sweep the range
    asked for, and the entries of a tensor differ from one sample to the
    next.  [scale_by_time] is a network that multiplies each sample by
    its timestep, and raises unless it gets one timestep per sample. *)

Definition counting_randint (low high n : nat) (g : nat) : list nat * nat :=
  (map (fun k => (low + (g + k) mod (high - low))%nat) (seq 0 n), S g).

Definition counting_randn (n m : nat) (g : nat) : batch * nat :=
  (map (fun k => repeat (INR (S (g + k))) m) (seq 0 n), S g).

Definition scale_by_time (x : batch) (t : list R) : option batch := row_scale t x.

(** ** Lists *)

Lemma cumsum_from_length (l : list R) (acc : R) :
  length (cumsum_from acc l) = length l.
Proof.
  revert acc. induction l as [|x l IH]; intros acc; simpl; [reflexivity|].
  now rewrite IH.
Qed.

Lemma map2_length {A B C : Type} (f : A -> B -> C) (a : list A) (b : list B) :
  length a = length b -> length (map2 f a b) = length a.
Proof.
  revert b. induction a as [|x a IH]; intros [|y b] H; simpl in *; try easy.
  now rewrite IH by lia.
Qed.

Lemma map2_nth {A B C : Type} (f : A -> B -> C) (a : list A) (b : list B)
      (i : nat) (da : A) (db : B) (dc : C) :
  (i < length a)%nat -> (i < length b)%nat ->
  nth i (map2 f a b) dc = f (nth i a da) (nth i b db).
Proof.
  revert b i. induction a as [|x a IH]; intros [|y b] [|i] Ha Hb; simpl in *; try lia.
  - reflexivity.
  - apply IH; lia.
Qed.

Lemma map_nth_lt {A B : Type} (f : A -> B) (l : list A) (i : nat) (da : A) (db : B) :
  (i < length l)%nat -> nth i (map f l) db = f (nth i l da).
Proof.
  intros H. rewrite (nth_indep _ db (f da)) by now rewrite length_map.
  apply map_nth.
Qed.

Lemma arange_length (n : nat) : length (arange n) = n.
Proof. unfold arange. now rewrite length_map, length_seq. Qed.

Lemma arange_nth (n i : nat) : (i < n)%nat -> nth i (arange n) 0 = INR i.
Proof.
  intros H. unfold arange.
  rewrite (map_nth_lt INR _ i O) by now rewrite length_seq.
  now rewrite seq_nth.
Qed.

Lemma cumsum_from_nth_0 (l : list R) (acc : R) :
  (0 < length l)%nat -> nth 0 (cumsum_from acc l) 0 = acc + nth 0 l 0.
Proof. destruct l; simpl; [lia | reflexivity]. Qed.

Lemma cumsum_from_nth_S (l : list R) (acc : R) (t : nat) :
  (S t < length l)%nat ->
  nth (S t) (cumsum_from acc l) 0 = nth t (cumsum_from acc l) 0 + nth (S t) l 0.
Proof.
  revert acc t. induction l as [|x l IH]; intros acc t H; simpl in H; [lia|].
  destruct t as [|t].
  - destruct l as [|y l]; simpl in *; [lia | reflexivity].
  - change (nth (S t) (cumsum_from (acc + x) l) 0 =
            nth t (cumsum_from (acc + x) l) 0 + nth (S t) l 0).
    apply IH. lia.
Qed.

(** ** The fields of the schedule, entry by entry *)

Section ScheduleEntries.
Variables (beta1 beta2 : R) (T : nat).

Lemma beta_t_length : length (beta_t beta1 beta2 T) = S T.
Proof. unfold beta_t. rewrite length_map, arange_length. lia. Qed.

Lemma beta_t_nth (t : nat) :
  (t <= T)%nat -> nth t (beta_t beta1 beta2 T) 0 = beta_at beta1 beta2 T t.
Proof.
  intros H. unfold beta_t, beta_at.
  rewrite (map_nth_lt _ _ t 0) by (rewrite arange_length; lia).
  rewrite arange_nth by lia. reflexivity.
Qed.

(** What the assertion lets through, and the fields it then builds. *)
Lemma ddpm_schedules_fields (s : schedules) :
  ddpm_schedules beta1 beta2 T = Some s ->
  beta1 < beta2 /\ beta2 < 1 /\
  alpha_t s = map (fun b => 1 - b) (beta_t beta1 beta2 T) /\
  oneover_sqrta s = map (fun a => 1 / sqrt a) (alpha_t s) /\
  sqrt_beta_t s = map sqrt (beta_t beta1 beta2 T) /\
  alphabar_t s = map exp (cumsum (map ln (alpha_t s))) /\
  sqrtab s = map sqrt (alphabar_t s) /\
  sqrtmab s = map (fun ab => sqrt (1 - ab)) (alphabar_t s) /\
  mab_over_sqrtmab s = map2 (fun a m => (1 - a) / m) (alpha_t s) (sqrtmab s).
Proof.
  unfold ddpm_schedules.
  destruct (Rlt_dec beta1 beta2) as [H12|]; [|discriminate].
  destruct (Rlt_dec beta2 1) as [H2|]; [|discriminate].
  intros E. injection E as <-. simpl. repeat split; assumption.
Qed.

Lemma ddpm_schedules_accepts :
  beta1 < beta2 -> beta2 < 1 -> exists s, ddpm_schedules beta1 beta2 T = Some s.
Proof.
  intros H12 H2. unfold ddpm_schedules.
  destruct (Rlt_dec beta1 beta2); [|contradiction].
  destruct (Rlt_dec beta2 1); [|contradiction].
  eexists. reflexivity.
Qed.

Variable s : schedules.
Hypothesis Hs : ddpm_schedules beta1 beta2 T = Some s.

Lemma alpha_t_length : length (alpha_t s) = S T.
Proof.
  destruct (ddpm_schedules_fields s Hs) as (_ & _ & -> & _).
  now rewrite length_map, beta_t_length.
Qed.

Lemma alpha_t_nth (t : nat) :
  (t <= T)%nat -> nth t (alpha_t s) 0 = alpha_at beta1 beta2 T t.
Proof.
  intros H. destruct (ddpm_schedules_fields s Hs) as (_ & _ & -> & _).
  rewrite (map_nth_lt _ _ t 0) by (rewrite beta_t_length; lia).
  now rewrite beta_t_nth.
Qed.

Lemma oneover_sqrta_nth (t : nat) :
  (t <= T)%nat -> nth t (oneover_sqrta s) 0 = 1 / sqrt (alpha_at beta1 beta2 T t).
Proof.
  intros H. destruct (ddpm_schedules_fields s Hs) as (_ & _ & _ & -> & _).
  rewrite (map_nth_lt _ _ t 0) by (rewrite alpha_t_length; lia).
  now rewrite alpha_t_nth.
Qed.

Lemma sqrt_beta_t_nth (t : nat) :
  (t <= T)%nat -> nth t (sqrt_beta_t s) 0 = sqrt (beta_at beta1 beta2 T t).
Proof.
  intros H. destruct (ddpm_schedules_fields s Hs) as (_ & _ & _ & _ & -> & _).
  rewrite (map_nth_lt _ _ t 0) by (rewrite beta_t_length; lia).
  now rewrite beta_t_nth.
Qed.

Lemma log_alpha_cumsum_nth (t : nat) :
  (t <= T)%nat ->
  nth t (cumsum (map ln (alpha_t s))) 0 = log_alpha_sum beta1 beta2 T t.
Proof.
  assert (L : length (map ln (alpha_t s)) = S T)
    by now rewrite length_map, alpha_t_length.
  assert (N : forall k, (k <= T)%nat ->
              nth k (map ln (alpha_t s)) 0 = ln (alpha_at beta1 beta2 T k)).
  { intros k Hk. rewrite (map_nth_lt _ _ k 0) by (rewrite alpha_t_length; lia).
    now rewrite alpha_t_nth. }
  unfold cumsum. induction t as [|t IH]; intros H.
  - rewrite cumsum_from_nth_0 by lia. rewrite N by lia. simpl. lra.
  - rewrite cumsum_from_nth_S by lia. rewrite IH by lia. rewrite N by lia.
    reflexivity.
Qed.

Lemma alphabar_t_length : length (alphabar_t s) = S T.
Proof.
  destruct (ddpm_schedules_fields s Hs) as (_ & _ & _ & _ & _ & -> & _).
  unfold cumsum. now rewrite length_map, cumsum_from_length, length_map, alpha_t_length.
Qed.

Lemma alphabar_t_nth (t : nat) :
  (t <= T)%nat -> nth t (alphabar_t s) 0 = exp (log_alpha_sum beta1 beta2 T t).
Proof.
  intros H. pose proof alphabar_t_length as L.
  destruct (ddpm_schedules_fields s Hs) as (_ & _ & _ & _ & _ & E & _).
  rewrite E in L |- *. rewrite length_map in L.
  rewrite (map_nth_lt _ _ t 0) by lia.
  now rewrite log_alpha_cumsum_nth.
Qed.

Lemma sqrtab_length : length (sqrtab s) = S T.
Proof.
  destruct (ddpm_schedules_fields s Hs) as (_ & _ & _ & _ & _ & _ & -> & _).
  now rewrite length_map, alphabar_t_length.
Qed.

Lemma sqrtab_nth (t : nat) :
  (t <= T)%nat -> nth t (sqrtab s) 0 = sqrt (exp (log_alpha_sum beta1 beta2 T t)).
Proof.
  intros H. destruct (ddpm_schedules_fields s Hs) as (_ & _ & _ & _ & _ & _ & -> & _).
  rewrite (map_nth_lt _ _ t 0) by (rewrite alphabar_t_length; lia).
  now rewrite alphabar_t_nth.
Qed.

Lemma sqrtmab_length : length (sqrtmab s) = S T.
Proof.
  destruct (ddpm_schedules_fields s Hs) as (_ & _ & _ & _ & _ & _ & _ & -> & _).
  now rewrite length_map, alphabar_t_length.
Qed.

Lemma sqrtmab_nth (t : nat) :
  (t <= T)%nat ->
  nth t (sqrtmab s) 0 = sqrt (1 - exp (log_alpha_sum beta1 beta2 T t)).
Proof.
  intros H. destruct (ddpm_schedules_fields s Hs) as (_ & _ & _ & _ & _ & _ & _ & -> & _).
  rewrite (map_nth_lt _ _ t 0) by (rewrite alphabar_t_length; lia).
  now rewrite alphabar_t_nth.
Qed.

Lemma mab_over_sqrtmab_nth (t : nat) :
  (t <= T)%nat ->
  nth t (mab_over_sqrtmab s) 0 =
  (1 - alpha_at beta1 beta2 T t) / sqrt (1 - exp (log_alpha_sum beta1 beta2 T t)).
Proof.
  intros H.
  destruct (ddpm_schedules_fields s Hs) as (_ & _ & _ & _ & _ & _ & _ & _ & ->).
  rewrite (map2_nth _ _ _ t 0 0) by (rewrite ?alpha_t_length, ?sqrtmab_length; lia).
  now rewrite alpha_t_nth, sqrtmab_nth.
Qed.

End ScheduleEntries.

(** ** Ranges of the entries for valid inputs *)

Section ValidSchedule.
Variables (beta1 beta2 : R) (T : nat).
Hypothesis Hb12 : beta1 < beta2.
Hypothesis Hb2 : beta2 < 1.
Hypothesis HT : (0 < T)%nat.

Lemma beta_at_range (t : nat) :
  (t <= T)%nat -> beta1 <= beta_at beta1 beta2 T t <= beta2.
Proof.
  intros H. unfold beta_at.
  assert (HT' : 0 < INR T) by (apply lt_0_INR; exact HT).
  assert (Ht : 0 <= INR t <= INR T) by (split; [apply pos_INR | now apply le_INR]).
  assert (Hq : 0 <= INR t / INR T <= 1).
  { split.
    - apply Rmult_le_pos; [lra|]. left. now apply Rinv_0_lt_compat.
    - apply (Rmult_le_reg_r (INR T)); [lra|]. field_simplify; lra. }
  replace ((beta2 - beta1) * INR t / INR T) with ((beta2 - beta1) * (INR t / INR T))
    by (field; lra).
  nra.
Qed.

Lemma alpha_at_pos (t : nat) : (t <= T)%nat -> 0 < alpha_at beta1 beta2 T t.
Proof.
  intros H. unfold alpha_at. pose proof (beta_at_range t H). lra.
Qed.

Lemma beta_at_increasing (t : nat) :
  beta_at beta1 beta2 T t < beta_at beta1 beta2 T (S t).
Proof.
  unfold beta_at. rewrite S_INR.
  assert (HT' : 0 < INR T) by (apply lt_0_INR; exact HT).
  assert (0 < (beta2 - beta1) / INR T).
  { apply Rmult_lt_0_compat; [lra|]. now apply Rinv_0_lt_compat. }
  replace ((beta2 - beta1) * (INR t + 1) / INR T)
    with ((beta2 - beta1) * INR t / INR T + (beta2 - beta1) / INR T) by (field; lra).
  lra.
Qed.

(** The exponential of the running sum of logarithms is the cumulative
    product. *)
Lemma exp_log_alpha_sum (t : nat) :
  (t <= T)%nat -> exp (log_alpha_sum beta1 beta2 T t) = alpha_prod beta1 beta2 T t.
Proof.
  induction t as [|t IH]; intros H; simpl.
  - apply exp_ln. apply alpha_at_pos; lia.
  - rewrite exp_plus, IH by lia. f_equal. apply exp_ln. now apply alpha_at_pos.
Qed.

Hypothesis Hb1 : 0 < beta1.

Lemma alpha_at_range (t : nat) :
  (t <= T)%nat -> 0 < alpha_at beta1 beta2 T t < 1.
Proof.
  intros H. unfold alpha_at. pose proof (beta_at_range t H). lra.
Qed.

Lemma log_alpha_sum_neg (t : nat) :
  (t <= T)%nat -> log_alpha_sum beta1 beta2 T t < 0.
Proof.
  assert (N : forall k, (k <= T)%nat -> ln (alpha_at beta1 beta2 T k) < 0).
  { intros k Hk. destruct (alpha_at_range k Hk) as [Hp Hl].
    rewrite <- ln_1. now apply ln_increasing. }
  induction t as [|t IH]; intros H; simpl.
  - apply N; lia.
  - pose proof (IH ltac:(lia)). pose proof (N (S t) H). lra.
Qed.

Lemma alpha_prod_range (t : nat) :
  (t <= T)%nat -> 0 < alpha_prod beta1 beta2 T t < 1.
Proof.
  intros H. rewrite <- exp_log_alpha_sum by exact H. split.
  - apply exp_pos.
  - rewrite <- exp_0. apply exp_increasing. now apply log_alpha_sum_neg.
Qed.

Lemma alpha_prod_decreasing (t t' : nat) :
  (t <= t')%nat -> (t' <= T)%nat ->
  alpha_prod beta1 beta2 T t' <= alpha_prod beta1 beta2 T t.
Proof.
  induction 1 as [|t' Hle IH]; intros H; [lra|].
  simpl. pose proof (IH ltac:(lia)) as IH'.
  pose proof (alpha_prod_range t' ltac:(lia)).
  pose proof (alpha_at_range (S t') H). nra.
Qed.

End ValidSchedule.

(** ** Bounds on square roots *)

Lemma sqrt_lt_bound (x u : R) : 0 <= x -> 0 < u -> x < u * u -> sqrt x < u.
Proof.
  intros Hx Hu H. rewrite <- (sqrt_square u) by lra.
  apply sqrt_lt_1; nra.
Qed.

Lemma sqrt_gt_bound (x l : R) : 0 <= l -> l * l < x -> l < sqrt x.
Proof.
  intros Hl H. rewrite <- (sqrt_square l) at 1 by lra.
  apply sqrt_lt_1; nra.
Qed.

Lemma INR_600 : INR 600 = 600.
Proof. rewrite INR_IZR_INZ. reflexivity. Qed.

(** ** The schedule: monotonicity, the identity of the two roots *)

(** C1 (amended): for 0 < beta1 < beta2 < 1 and T > 0 the call succeeds,
    alphabar_t has T + 1 entries and is non-increasing over 0..T, its entry
    at index 0 is 1 - beta1 (the cumulative sum starts with log alpha_0),
    and sqrtab[t]^2 + sqrtmab[t]^2 = 1 for every t in 0..T. *)
Theorem ddpm_schedules_alphabar (beta1 beta2 : R) (T : nat) :
  0 < beta1 -> beta1 < beta2 -> beta2 < 1 -> (0 < T)%nat ->
  exists s, ddpm_schedules beta1 beta2 T = Some s /\
    length (alphabar_t s) = S T /\
    (forall t t', (t <= t')%nat -> (t' <= T)%nat ->
       nth t' (alphabar_t s) 0 <= nth t (alphabar_t s) 0) /\
    nth 0 (alphabar_t s) 0 = 1 - beta1 /\
    (forall t, (t <= T)%nat ->
       nth t (sqrtab s) 0 * nth t (sqrtab s) 0 +
       nth t (sqrtmab s) 0 * nth t (sqrtmab s) 0 = 1).
Proof.
  intros Hb1 Hb12 Hb2 HT.
  destruct (ddpm_schedules_accepts beta1 beta2 T Hb12 Hb2) as [s Hs].
  exists s. split; [exact Hs|]. split; [now apply (alphabar_t_length beta1 beta2 T)|].
  split; [|split].
  - intros t t' Hle Ht'.
    rewrite !(alphabar_t_nth beta1 beta2 T s Hs) by lia.
    rewrite !exp_log_alpha_sum by (assumption || lia).
    now apply alpha_prod_decreasing.
  - rewrite (alphabar_t_nth beta1 beta2 T s Hs) by lia.
    rewrite exp_log_alpha_sum by (assumption || lia).
    simpl. unfold alpha_at, beta_at. simpl. lra.
  - intros t Ht.
    rewrite (sqrtab_nth beta1 beta2 T s Hs), (sqrtmab_nth beta1 beta2 T s Hs) by exact Ht.
    rewrite exp_log_alpha_sum by assumption.
    pose proof (alpha_prod_range beta1 beta2 T Hb12 Hb2 HT Hb1 t Ht).
    rewrite !sqrt_sqrt by lra. lra.
Qed.

Lemma ddpm_schedules_alphabar_witness :
  exists s, ddpm_schedules (1/10) (2/10) 1 = Some s /\
    length (alphabar_t s) = 2%nat /\
    (forall t t', (t <= t')%nat -> (t' <= 1)%nat ->
       nth t' (alphabar_t s) 0 <= nth t (alphabar_t s) 0) /\
    nth 0 (alphabar_t s) 0 = 1 - 1/10 /\
    (forall t, (t <= 1)%nat ->
       nth t (sqrtab s) 0 * nth t (sqrtab s) 0 +
       nth t (sqrtmab s) 0 * nth t (sqrtmab s) 0 = 1).
Proof.
  apply (ddpm_schedules_alphabar (1/10) (2/10) 1); [lra | lra | lra | lia].
Defined.

(** C1, as stated, fails at beta1 = 0.1, beta2 = 0.2, T = 1: the entry of
    alphabar_t at index 0 is 0.9, not 1. *)
Lemma alphabar_0_is_not_one :
  exists s, ddpm_schedules (1/10) (2/10) 1 = Some s /\
    nth 0 (alphabar_t s) 0 = 9/10 /\ nth 0 (alphabar_t s) 0 < 1.
Proof.
  destruct (ddpm_schedules_accepts (1/10) (2/10) 1) as [s Hs]; [lra | lra |].
  exists s. split; [exact Hs|].
  assert (E : nth 0 (alphabar_t s) 0 = 9/10).
  { rewrite (alphabar_t_nth _ _ _ s Hs) by lia.
    simpl. unfold alpha_at, beta_at. simpl.
    replace (1 - ((2 / 10 - 1 / 10) * 0 / 1 + 1 / 10)) with (9/10) by lra.
    apply exp_ln. lra. }
  split; [exact E | rewrite E; lra].
Qed.

(** ** The assertion of [ddpm_schedules] *)

(** X1: The assertion rejects exactly beta1 >= beta2 and beta2 >= 1. *)
Lemma ddpm_schedules_rejects (beta1 beta2 : R) (T : nat) :
  ddpm_schedules beta1 beta2 T = None <-> (beta2 <= beta1 \/ 1 <= beta2).
Proof.
  unfold ddpm_schedules.
  destruct (Rlt_dec beta1 beta2) as [H12|H12]; [destruct (Rlt_dec beta2 1) as [H2|H2]|].
  - split; [discriminate | lra].
  - split; [right; lra | reflexivity].
  - split; [left; lra | reflexivity].
Qed.

(** C2 (the code at the failing input): beta1 = -0.5 lies outside (0, 1),
    and [ddpm_schedules (-0.5) 0.5 2] passes the assertion and returns a
    schedule, whose sqrt_beta_t at index 0 is the root of a negative
    number. *)
Theorem ddpm_schedules_accepts_negative_beta1 :
  exists s, ddpm_schedules (-1/2) (1/2) 2 = Some s /\
    nth 0 (beta_t (-1/2) (1/2) 2) 0 = -1/2 /\
    sqrt_beta_t s = map sqrt (beta_t (-1/2) (1/2) 2).
Proof.
  destruct (ddpm_schedules_accepts (-1/2) (1/2) 2) as [s Hs]; [lra | lra |].
  exists s. split; [exact Hs|]. split.
  - rewrite beta_t_nth by lia. unfold beta_at. simpl. lra.
  - now destruct (ddpm_schedules_fields _ _ _ s Hs) as (_ & _ & _ & _ & -> & _).
Qed.

(** ** The schedule of the training script *)

(** C7 (amended): with beta1 = 1e-4, beta2 = 0.02, T = 600 the call
    succeeds, beta_t (of which alpha_t is 1 - beta_t) is strictly
    increasing over 0..T, and oneover_sqrta at index 0 is 1/sqrt(1 - 1e-4)
    to within 1e-6. *)
Theorem ddpm_schedules_mnist :
  exists s, ddpm_schedules (1/10000) (2/100) 600 = Some s /\
    alpha_t s = map (fun b => 1 - b) (beta_t (1/10000) (2/100) 600) /\
    (forall t, (t < 600)%nat ->
       nth t (beta_t (1/10000) (2/100) 600) 0 <
       nth (S t) (beta_t (1/10000) (2/100) 600) 0) /\
    Rabs (nth 0 (oneover_sqrta s) 0 - 1 / sqrt (1 - 1/10000)) < 1/1000000.
Proof.
  destruct (ddpm_schedules_accepts (1/10000) (2/100) 600) as [s Hs]; [lra | lra |].
  exists s. split; [exact Hs|]. split; [|split].
  - now destruct (ddpm_schedules_fields _ _ _ s Hs) as (_ & _ & -> & _).
  - intros t Ht. rewrite !beta_t_nth by lia.
    apply beta_at_increasing; [lra | lia].
  - rewrite (oneover_sqrta_nth _ _ _ s Hs) by lia.
    unfold alpha_at, beta_at. change (INR 0) with 0.
    replace (1 - ((2 / 100 - 1 / 10000) * 0 / INR 600 + 1 / 10000)) with (1 - 1/10000).
    + rewrite Rminus_diag, Rabs_R0. lra.
    + rewrite INR_600. field.
Qed.

(** C7, as stated, fails: oneover_sqrta at index 1 is 1/sqrt(1 - beta_1)
    with beta_1 = 1e-4 + (0.02 - 1e-4)/600, more than 1e-6 away from
    1/sqrt(1 - 1e-4). *)
Lemma oneover_sqrta_1_is_off :
  exists s, ddpm_schedules (1/10000) (2/100) 600 = Some s /\
    1/1000000 < Rabs (nth 1 (oneover_sqrta s) 0 - 1 / sqrt (1 - 1/10000)).
Proof.
  destruct (ddpm_schedules_accepts (1/10000) (2/100) 600) as [s Hs]; [lra | lra |].
  exists s. split; [exact Hs|].
  rewrite (oneover_sqrta_nth _ _ _ s Hs) by lia.
  unfold alpha_at, beta_at. change (INR 1) with 1. rewrite INR_600.
  replace (1 - ((2 / 100 - 1 / 10000) * 1 / 600 + 1 / 10000))
    with (5999201 / 6000000) by field.
  assert (Ha : sqrt (5999201 / 6000000) < 99994 / 100000)
    by (apply sqrt_lt_bound; lra).
  assert (Ha0 : 0 < sqrt (5999201 / 6000000)) by (apply sqrt_lt_R0; lra).
  assert (Hb : 9999499 / 10000000 < sqrt (1 - 1 / 10000))
    by (apply sqrt_gt_bound; lra).
  assert (Hia : 100000 / 99994 < 1 / sqrt (5999201 / 6000000)).
  { unfold Rdiv at 2. rewrite Rmult_1_l.
    replace (100000 / 99994) with (/ (99994 / 100000)) by (field; lra).
    apply Rinv_lt_contravar; [nra | exact Ha]. }
  assert (Hib : 1 / sqrt (1 - 1 / 10000) < 10000000 / 9999499).
  { unfold Rdiv at 1. rewrite Rmult_1_l.
    replace (10000000 / 9999499) with (/ (9999499 / 10000000)) by (field; lra).
    apply Rinv_lt_contravar; [nra | exact Hb]. }
  apply Rlt_le_trans with
    (1 / sqrt (5999201 / 6000000) - 1 / sqrt (1 - 1 / 10000)); [lra | apply Rle_abs].
Qed.

(** ** Shapes through the layers *)

Lemma broadcast_rev_same (s : list nat) : Shape.broadcast_rev s s = Some s.
Proof.
  induction s as [|x s IH]; simpl; [reflexivity|].
  rewrite IH. simpl. now rewrite Nat.eqb_refl.
Qed.

Lemma broadcast_same (s : Shape.shape) : Shape.broadcast s s = Some s.
Proof.
  unfold Shape.broadcast. rewrite broadcast_rev_same. simpl. now rewrite rev_involutive.
Qed.

Lemma broadcast_rev_nil_r (s : list nat) : Shape.broadcast_rev s [] = Some s.
Proof. destruct s; reflexivity. Qed.

Lemma broadcast_scalar_r (s : Shape.shape) : Shape.broadcast s [] = Some s.
Proof.
  unfold Shape.broadcast. simpl. rewrite broadcast_rev_nil_r. simpl.
  now rewrite rev_involutive.
Qed.

Lemma broadcast_scalar_l (s : Shape.shape) : Shape.broadcast [] s = Some s.
Proof. unfold Shape.broadcast. simpl. now rewrite rev_involutive. Qed.

(** A per-sample, per-channel bias added to a feature map. *)
Lemma broadcast_bias (n c h w : nat) :
  Shape.broadcast [n; c; h; w] [n; c; 1%nat; 1%nat] = Some [n; c; h; w].
Proof.
  unfold Shape.broadcast. simpl. rewrite !Nat.eqb_refl.
  destruct (w =? 1)%nat eqn:Ew, (h =? 1)%nat eqn:Eh; simpl;
    rewrite ?Nat.eqb_refl; reflexivity.
Qed.

Lemma shape_eqb_refl (s : Shape.shape) : Shape.shape_eqb s s = true.
Proof. induction s as [|x s IH]; simpl; [reflexivity|]. now rewrite Nat.eqb_refl. Qed.

Lemma cat1_same (n c c' cc : nat) (r : list nat) :
  (c + c')%nat = cc -> Shape.cat1 (n :: c :: r) (n :: c' :: r) = Some (n :: cc :: r).
Proof. intros <-. simpl. now rewrite Nat.eqb_refl, shape_eqb_refl. Qed.

Lemma Conv2d_3_1_1 (cin cout n c h w : nat) :
  c = cin -> (1 <= h)%nat -> (1 <= w)%nat ->
  Shape.Conv2d cin cout 3 1 1 [n; c; h; w] = Some [n; cout; h; w].
Proof.
  intros -> Hh Hw. unfold Shape.Conv2d. rewrite Nat.eqb_refl.
  replace (3 <=? h + 2 * 1)%nat with true by (symmetry; apply Nat.leb_le; lia).
  replace (3 <=? w + 2 * 1)%nat with true by (symmetry; apply Nat.leb_le; lia).
  simpl "&&". cbv iota. rewrite !Nat.div_1_r.
  repeat f_equal; lia.
Qed.

Lemma BatchNorm2d_same (c n h w : nat) :
  Shape.BatchNorm2d c [n; c; h; w] = Some [n; c; h; w].
Proof. unfold Shape.BatchNorm2d. now rewrite Nat.eqb_refl. Qed.

Lemma GroupNorm_8 (c c' n : nat) (r : list nat) :
  c' = c -> (c mod 8 = 0)%nat ->
  Shape.GroupNorm 8 c (n :: c' :: r) = Some (n :: c' :: r).
Proof.
  intros -> H. unfold Shape.GroupNorm. rewrite Nat.eqb_refl, H. reflexivity.
Qed.

Lemma ConvTranspose2d_ok (cin cout k s n c h w : nat) :
  c = cin -> (0 < s)%nat -> (0 < h)%nat -> (0 < w)%nat ->
  Shape.ConvTranspose2d cin cout k s [n; c; h; w] =
  Some [n; cout; ((h - 1) * s + k)%nat; ((w - 1) * s + k)%nat].
Proof.
  intros -> Hs Hh Hw. unfold Shape.ConvTranspose2d. rewrite Nat.eqb_refl.
  apply Nat.ltb_lt in Hs, Hh, Hw. now rewrite Hs, Hh, Hw.
Qed.

Lemma ResidualConvBlock_shape (cin cout : nat) (is_res : bool) (n c h w : nat) :
  c = cin -> (1 <= h)%nat -> (1 <= w)%nat ->
  Shape.ResidualConvBlock cin cout is_res [n; c; h; w] = Some [n; cout; h; w].
Proof.
  intros -> Hh Hw. unfold Shape.ResidualConvBlock, Shape.GELU.
  rewrite (Conv2d_3_1_1 cin cout) by (reflexivity || assumption).
  cbn [obind]. rewrite BatchNorm2d_same. cbn [obind].
  rewrite (Conv2d_3_1_1 cout cout) by (reflexivity || assumption).
  cbn [obind]. rewrite BatchNorm2d_same. cbn [obind].
  destruct is_res; [|reflexivity].
  destruct (cin =? cout)%nat eqn:E.
  - apply Nat.eqb_eq in E. subst cout.
    rewrite broadcast_same. cbn [obind]. apply broadcast_scalar_r.
  - rewrite broadcast_same. cbn [obind]. apply broadcast_scalar_r.
Qed.

Lemma UnetDown_shape (cin cout n c h w : nat) :
  c = cin -> (2 <= h)%nat -> (2 <= w)%nat ->
  Shape.UnetDown cin cout [n; c; h; w] =
  Some [n; cout; ((h - 2) / 2 + 1)%nat; ((w - 2) / 2 + 1)%nat].
Proof.
  intros Hc Hh Hw. unfold Shape.UnetDown.
  rewrite ResidualConvBlock_shape by (assumption || lia). cbn [obind].
  unfold Shape.MaxPool2d, Shape.Pool2d.
  apply Nat.leb_le in Hh, Hw. now rewrite Hh, Hw.
Qed.

Lemma UnetUp_shape (cin cout n c c' h w : nat) :
  (c + c')%nat = cin -> (0 < h)%nat -> (0 < w)%nat ->
  Shape.UnetUp cin cout [n; c; h; w] [n; c'; h; w] =
  Some [n; cout; ((h - 1) * 2 + 2)%nat; ((w - 1) * 2 + 2)%nat].
Proof.
  intros Hc Hh Hw. unfold Shape.UnetUp.
  rewrite (cat1_same n c c' cin) by exact Hc. cbn [obind].
  rewrite ConvTranspose2d_ok by (reflexivity || lia). cbn [obind].
  rewrite ResidualConvBlock_shape by (reflexivity || lia). cbn [obind].
  apply ResidualConvBlock_shape; (reflexivity || lia).
Qed.

Lemma view_infer_ok (x : Shape.shape) (rest : list nat) (n : nat) :
  (0 < Shape.numel rest)%nat -> Shape.numel x = (n * Shape.numel rest)%nat ->
  Shape.view_infer x rest = Some (n :: rest).
Proof.
  intros Hr Hx. unfold Shape.view_infer.
  replace (Shape.numel rest =? 0)%nat with false by (symmetry; apply Nat.eqb_neq; lia).
  rewrite Hx, Nat.Div0.mod_mul, Nat.div_mul by lia. reflexivity.
Qed.

Lemma EmbedFC_1_shape (emb_dim n : nat) (t : Shape.shape) :
  Shape.numel t = n -> Shape.EmbedFC 1 emb_dim t = Some [n; emb_dim].
Proof.
  intros Ht. unfold Shape.EmbedFC.
  rewrite (view_infer_ok t [1%nat] n) by (simpl; lia). cbn [obind].
  unfold Shape.Linear, Shape.GELU. cbn. now rewrite Nat.eqb_refl.
Qed.

(** C8: for a batch of N >= 1 images of shape (1, 28, 28) and a timestep
    tensor of N entries, the forward pass of [Unet(1, n_feat)], for any
    feature width its group norms accept (a positive multiple of 8),
    returns a tensor of shape (N, 1, 28, 28). *)
Theorem Unet_forward_preserves_shape (N n_feat : nat) (t : Shape.shape) :
  (1 <= N)%nat -> (0 < n_feat)%nat -> (n_feat mod 8 = 0)%nat -> Shape.numel t = N ->
  Shape.Unet_forward 1 n_feat [N; 1; 28; 28]%nat t = Some [N; 1; 28; 28]%nat.
Proof.
  intros HN Hpos H8 Ht. unfold Shape.Unet_forward.
  assert (H16 : ((2 * n_feat) mod 8 = 0)%nat).
  { apply Nat.Div0.mod_divides in H8. destruct H8 as [k ->].
    replace (2 * (8 * k))%nat with (8 * (2 * k))%nat by lia.
    rewrite Nat.mul_comm. apply Nat.Div0.mod_mul. }
  rewrite ResidualConvBlock_shape by (reflexivity || lia). cbn [obind].
  rewrite UnetDown_shape by (reflexivity || lia). cbn [obind].
  change ((28 - 2) / 2 + 1)%nat with 14%nat.
  rewrite UnetDown_shape by (reflexivity || lia). cbn [obind].
  change ((14 - 2) / 2 + 1)%nat with 7%nat.
  unfold Shape.AvgPool2d, Shape.Pool2d, Shape.GELU, Shape.ReLU.
  change ((7 - 7) / 7 + 1)%nat with 1%nat. cbn [Nat.ltb Nat.leb andb obind].
  rewrite !(EmbedFC_1_shape _ N) by exact Ht. cbn [obind].
  rewrite (view_infer_ok _ [n_feat * 2; 1; 1]%nat N) by (simpl; lia).
  rewrite (view_infer_ok _ [n_feat; 1; 1]%nat N) by (simpl; lia).
  cbn [obind].
  rewrite ConvTranspose2d_ok by (reflexivity || lia). cbn [obind].
  change ((1 - 1) * 7 + 7)%nat with 7%nat.
  rewrite GroupNorm_8 by (reflexivity || assumption). cbn [obind].
  replace (n_feat * 2)%nat with (2 * n_feat)%nat by lia.
  rewrite broadcast_bias. cbn [obind].
  rewrite (UnetUp_shape (4 * n_feat) n_feat N (2 * n_feat) (2 * n_feat)) by lia.
  cbn [obind]. change ((7 - 1) * 2 + 2)%nat with 14%nat.
  rewrite broadcast_bias. cbn [obind].
  rewrite (UnetUp_shape (2 * n_feat) n_feat N n_feat n_feat) by lia.
  cbn [obind]. change ((14 - 1) * 2 + 2)%nat with 28%nat.
  rewrite (cat1_same N n_feat n_feat (2 * n_feat)) by lia. cbn [obind].
  rewrite Conv2d_3_1_1 by (reflexivity || lia). cbn [obind].
  rewrite GroupNorm_8 by (reflexivity || assumption). cbn [obind].
  apply Conv2d_3_1_1; (reflexivity || lia).
Qed.

Lemma Unet_forward_preserves_shape_witness :
  Shape.Unet_forward 1 256 [10; 1; 28; 28]%nat [10; 1; 1; 1]%nat
  = Some [10; 1; 28; 28]%nat.
Proof.
  apply (Unet_forward_preserves_shape 10 256 [10; 1; 1; 1]%nat);
    [lia | lia | reflexivity | reflexivity].
Defined.

(** ** The loop of [DDPM.sample] on shapes *)

Lemma timesteps_range (n_T i : nat) :
  In i (timesteps n_T) -> (1 <= i <= n_T)%nat.
Proof.
  unfold timesteps. rewrite <- in_rev, in_seq. lia.
Qed.

Section SampleShapes.
Variable nn_model : Shape.shape -> Shape.shape -> option Shape.shape.
Variables (n_T n_sample c h w : nat).

(** The network returns the shape of the doubled batch it is given. *)
Hypothesis nn_model_shape :
  nn_model [(2 * n_sample)%nat; c; h; w] [(2 * n_sample)%nat; 1%nat; 1%nat; 1%nat]
  = Some [(2 * n_sample)%nat; c; h; w].

Lemma sample_step_shape (i : nat) :
  (1 <= i <= n_T)%nat ->
  Shape.sample_step nn_model n_T n_sample [c; h; w] i [n_sample; c; h; w]
  = Some [n_sample; c; h; w].
Proof.
  intros Hi. unfold Shape.sample_step, Shape.trepeat.
  cbn [length Nat.ltb Nat.leb Nat.sub repeat app map2 obind].
  rewrite !Nat.mul_1_l, !Nat.mul_1_r. rewrite nn_model_shape.
  cbn [obind Shape.slice0 Shape.index0].
  replace (Nat.min n_sample (2 * n_sample)) with n_sample by lia.
  replace (i <? n_T + 1)%nat with true by (symmetry; apply Nat.ltb_lt; lia).
  cbn [obind].
  rewrite broadcast_scalar_r. cbn [obind].
  rewrite broadcast_same. cbn [obind].
  rewrite !broadcast_scalar_l. cbn [obind].
  destruct i as [|[|i]]; (apply broadcast_same || apply broadcast_scalar_r).
Qed.

Lemma sample_loop_shape (steps : list nat) (store : list Shape.shape) :
  Forall (fun i => (1 <= i <= n_T)%nat) steps ->
  Forall (fun s => s = [n_sample; c; h; w]) store ->
  exists store',
    Shape.sample_loop nn_model n_T n_sample [c; h; w] steps [n_sample; c; h; w] store
    = Some ([n_sample; c; h; w], store') /\
    Forall (fun s => s = [n_sample; c; h; w]) store'.
Proof.
  revert store. induction steps as [|i steps IH]; intros store Hsteps Hstore.
  - exists store. split; [reflexivity | exact Hstore].
  - inversion Hsteps as [|? ? Hi Hrest]; subst.
    cbn [Shape.sample_loop]. rewrite sample_step_shape by exact Hi. cbn [obind].
    apply IH; [exact Hrest|].
    destruct (keeps_snapshot n_T i); [|exact Hstore].
    apply Forall_app. split; [exact Hstore | now constructor].
Qed.

End SampleShapes.

(** C10 (amended): for n_sample >= 1 and an image shape size = (C, H, W)
    of three dimensions, with a network that returns the shape of the
    doubled batch it is given, [DDPM.sample] returns a final batch of
    shape (n_sample,) + size, and every snapshot has that shape. *)
Theorem DDPM_sample_keeps_n_sample
        (nn_model : Shape.shape -> Shape.shape -> option Shape.shape)
        (n_T n_sample : nat) (size : Shape.shape) :
  (1 <= n_sample)%nat -> length size = 3%nat ->
  nn_model ((2 * n_sample)%nat :: size) [(2 * n_sample)%nat; 1%nat; 1%nat; 1%nat]
  = Some ((2 * n_sample)%nat :: size) ->
  exists store,
    Shape.DDPM_sample nn_model n_T n_sample size = Some (n_sample :: size, store) /\
    Forall (fun s => s = n_sample :: size) store.
Proof.
  intros Hn Hsize Hnn.
  destruct size as [|c [|h [|w [|? ?]]]]; try discriminate.
  unfold Shape.DDPM_sample.
  apply sample_loop_shape; [exact Hnn | | constructor].
  apply Forall_forall. intros i Hi. now apply timesteps_range.
Qed.

Lemma DDPM_sample_keeps_n_sample_witness :
  exists store,
    Shape.DDPM_sample (Shape.Unet_forward 1 8) 40 10 [1; 28; 28]%nat
    = Some ([10; 1; 28; 28]%nat, store) /\
    Forall (fun s => s = [10; 1; 28; 28]%nat) store.
Proof.
  apply (DDPM_sample_keeps_n_sample (Shape.Unet_forward 1 8) 40 10 [1; 28; 28]%nat);
    [lia | reflexivity | reflexivity].
Defined.

(** C10, as stated, fails for a size of two dimensions: with
    n_sample = 1 and size = (28, 28) the doubling [repeat(2, 1, 1, 1)]
    adds a dimension, and the final batch and the snapshots have shape
    (1, 1, 28, 28), not (1, 28, 28). *)
Lemma DDPM_sample_two_dimensional_size :
  Shape.DDPM_sample (Shape.Unet_forward 1 8) 2 1 [28; 28]%nat
  = Some ([1; 1; 28; 28]%nat, [[1; 1; 28; 28]%nat; [1; 1; 28; 28]%nat]) /\
  [1; 1; 28; 28]%nat <> (1 :: [28; 28])%nat.
Proof. split; [vm_compute; reflexivity | discriminate]. Qed.

(** ** The residual block *)

Lemma sqrt_2_bounds : 1414 / 1000 < sqrt 2 < 1415 / 1000.
Proof. split; [apply sqrt_gt_bound | apply sqrt_lt_bound]; lra. Qed.

(** C5 (amended): a residual block with equal input and output channel
    counts and is_res enabled, whose two stacks conv1 and conv2 are
    [stack1] and [stack2], returns (x + conv2(conv1(x))) / 1.414; the
    divisor is the literal 1.414, which lies within 0.001 of sqrt 2. *)
Theorem ResidualConvBlock_forward_residual
        (channels : nat) (stack1 stack2 : batch -> option batch) (x : batch) :
  ResidualConvBlock_forward
    (ResidualConvBlock_init channels channels true stack1 stack2) x
  = (x1 <- stack1 x ;;
     x2 <- stack2 x1 ;;
     s <- tadd x x2 ;;
     Some (map (map (fun v => v / (1414 / 1000))) s))
  /\ 1414 / 1000 < sqrt 2 < 1415 / 1000.
Proof.
  split; [|exact sqrt_2_bounds].
  unfold ResidualConvBlock_forward, ResidualConvBlock_init.
  cbn [is_res same_channels conv1 conv2].
  rewrite Nat.eqb_refl. reflexivity.
Qed.

(** C5, as stated, fails: with identity stacks and the one-pixel input 1
    the block returns (1 + 1) / 1.414, which is larger than
    (1 + 1) / sqrt 2. *)
Lemma residual_scale_is_not_sqrt_2 :
  ResidualConvBlock_forward
    (ResidualConvBlock_init 1 1 true (fun x => Some x) (fun x => Some x)) [[1]]
  = Some [[(1 + 1) / (1414 / 1000)]]
  /\ (1 + 1) / sqrt 2 < (1 + 1) / (1414 / 1000).
Proof.
  split; [reflexivity|].
  destruct sqrt_2_bounds as [Hl Hu].
  unfold Rdiv at 1 3. apply Rmult_lt_compat_l; [lra|].
  apply Rinv_lt_contravar; [nra | exact Hl].
Qed.

(** ** [drop_prob] *)

Lemma DDPM_init_stores_drop_prob (net : batch -> list R -> option batch)
      (betas : R * R) (T : nat) (p : R) (self : DDPM) :
  DDPM_init net betas T p = Some self ->
  drop_prob self = p /\ n_T self = T /\ nn_model self = net /\
  ddpm_schedules (fst betas) (snd betas) T = Some (buffers self).
Proof.
  unfold DDPM_init. destruct (ddpm_schedules (fst betas) (snd betas) T) as [s|];
    [|discriminate].
  cbn [obind]. intros E. injection E as <-. repeat split; reflexivity.
Qed.

Section DropProb.
Variable rng : Type.
Variable randn : nat -> nat -> rng -> batch * rng.
Variables (net : batch -> list R -> option batch) (b : schedules) (T : nat).
Variables (p1 p2 : R).

Lemma sample_step_drop_prob (n_sample m i : nat) (x : batch) (g : rng) :
  sample_step rng randn (mk_DDPM net b T p1) n_sample m i x g
  = sample_step rng randn (mk_DDPM net b T p2) n_sample m i x g.
Proof. reflexivity. Qed.

Lemma sample_loop_drop_prob (n_sample m : nat) (steps : list nat) :
  forall (x : batch) (store : list batch) (g : rng),
    sample_loop rng randn (mk_DDPM net b T p1) n_sample m steps x store g
    = sample_loop rng randn (mk_DDPM net b T p2) n_sample m steps x store g.
Proof.
  induction steps as [|i steps IH]; intros x store g; [reflexivity|].
  cbn [sample_loop]. unfold bind. rewrite sample_step_drop_prob.
  destruct (sample_step rng randn (mk_DDPM net b T p2) n_sample m i x g)
    as [[x' g']|]; [|reflexivity].
  apply IH.
Qed.

End DropProb.

(** C9: two wrappers that agree on the network, the buffers and n_T, and
    differ at most in drop_prob, return the same loss from [forward] and
    the same final batch and snapshots from [sample], on the same input
    and the same random draws. *)
Theorem drop_prob_noninterference
        (rng : Type) (randint : nat -> nat -> nat -> rng -> list nat * rng)
        (randn : nat -> nat -> rng -> batch * rng)
        (s1 s2 : DDPM) (x : batch) (n_sample : nat) (size : nat * nat * nat) (g : rng) :
  nn_model s1 = nn_model s2 -> buffers s1 = buffers s2 -> n_T s1 = n_T s2 ->
  DDPM_forward rng randint randn s1 x g = DDPM_forward rng randint randn s2 x g /\
  DDPM_sample rng randn s1 n_sample size g = DDPM_sample rng randn s2 n_sample size g.
Proof.
  destruct s1 as [net1 b1 T1 p1], s2 as [net2 b2 T2 p2]. cbn [nn_model buffers n_T].
  intros -> -> ->. split; [reflexivity|].
  unfold DDPM_sample, bind, torch_randn. cbn [n_T].
  destruct (randn n_sample (size_numel size) g) as [x0 g0].
  apply sample_loop_drop_prob.
Qed.

(** ** Elementwise operations *)

Section ZipWith.
Context {A B C : Type}.

Lemma zip_with_ext (f g : A -> B -> option C) (a : list A) (b : list B) :
  (forall x y, f x y = g x y) -> zip_with f a b = zip_with g a b.
Proof.
  intros E. revert b. induction a as [|x a IH]; intros [|y b]; simpl; try reflexivity.
  now rewrite E, IH.
Qed.

Lemma zip_with_map_r {B' : Type} (f : A -> B -> option C) (h : B' -> B)
      (a : list A) (b : list B') :
  zip_with f a (map h b) = zip_with (fun x y => f x (h y)) a b.
Proof.
  revert b. induction a as [|x a IH]; intros [|y b]; simpl; try reflexivity.
  now rewrite IH.
Qed.

Lemma zip_with_map_l {A' : Type} (f : A -> B -> option C) (h : A' -> A)
      (a : list A') (b : list B) :
  zip_with f (map h a) b = zip_with (fun x y => f (h x) y) a b.
Proof.
  revert b. induction a as [|x a IH]; intros [|y b]; simpl; try reflexivity.
  now rewrite IH.
Qed.

Lemma zip_with_map_out {D : Type} (f : A -> B -> option C) (h : C -> D)
      (a : list A) (b : list B) :
  option_map (map h) (zip_with f a b)
  = zip_with (fun x y => option_map h (f x y)) a b.
Proof.
  revert b. induction a as [|x a IH]; intros [|y b]; simpl; try reflexivity.
  rewrite <- IH. destruct (f x y), (zip_with f a b); reflexivity.
Qed.

Lemma zip_with_length (f : A -> B -> option C) (a : list A) (b : list B) (c : list C) :
  zip_with f a b = Some c -> length a = length c /\ length b = length c.
Proof.
  revert b c. induction a as [|x a IH]; intros [|y b] c; simpl; try discriminate.
  - intros E. injection E as <-. split; reflexivity.
  - destruct (f x y); [|discriminate].
    destruct (zip_with f a b) as [r|] eqn:E; [|discriminate].
    intros E'. injection E' as <-. destruct (IH b r E). simpl. split; congruence.
Qed.

Lemma zip_with_total (f : A -> B -> C) (a : list A) (b : list B) :
  length a = length b -> zip_with (fun x y => Some (f x y)) a b = Some (map2 f a b).
Proof.
  revert b. induction a as [|x a IH]; intros [|y b] H; simpl in *; try discriminate.
  - reflexivity.
  - rewrite IH by lia. reflexivity.
Qed.

End ZipWith.

Lemma tzip_ext (f g : R -> R -> R) (a b : batch) :
  (forall u v, f u v = g u v) -> tzip f a b = tzip g a b.
Proof.
  intros E. unfold tzip. apply zip_with_ext. intros x y.
  apply zip_with_ext. intros u v. now rewrite E.
Qed.

Lemma tzip_map_r (f : R -> R -> R) (h : R -> R) (a b : batch) :
  tzip f a (map (map h) b) = tzip (fun u v => f u (h v)) a b.
Proof.
  unfold tzip. rewrite zip_with_map_r. apply zip_with_ext. intros x y.
  apply zip_with_map_r.
Qed.

Lemma tzip_map_l (f : R -> R -> R) (h : R -> R) (a b : batch) :
  tzip f (map (map h) a) b = tzip (fun u v => f (h u) v) a b.
Proof.
  unfold tzip. rewrite zip_with_map_l. apply zip_with_ext. intros x y.
  apply zip_with_map_l.
Qed.

Lemma tzip_map_out (f : R -> R -> R) (h : R -> R) (a b : batch) :
  option_map (map (map h)) (tzip f a b) = tzip (fun u v => h (f u v)) a b.
Proof.
  unfold tzip. rewrite zip_with_map_out. apply zip_with_ext. intros x y.
  now rewrite zip_with_map_out.
Qed.

(** ** Shapes of batches *)

Lemma same_shape_length (a b : batch) : same_shape a b -> length a = length b.
Proof. induction 1; simpl; congruence. Qed.

Lemma same_shape_refl (a : batch) : same_shape a a.
Proof. induction a; constructor; auto. Qed.

Lemma same_shape_sym (a b : batch) : same_shape a b -> same_shape b a.
Proof. induction 1; constructor; auto. Qed.

Lemma same_shape_trans (a b c : batch) :
  same_shape a b -> same_shape b c -> same_shape a c.
Proof.
  intros H. revert c. induction H as [|x y a b Hxy _ IH]; intros c Hc;
    inversion Hc; subst.
  - constructor.
  - constructor; [congruence | apply IH; assumption].
Qed.

Lemma same_shape_map_l (h : R -> R) (a b : batch) :
  same_shape a b -> same_shape (map (map h) a) b.
Proof. induction 1; simpl; constructor; [now rewrite length_map | assumption]. Qed.

Lemma well_shaped_same (n m : nat) (a b : batch) :
  well_shaped n m a -> well_shaped n m b -> same_shape a b.
Proof.
  intros [La Fa] [Lb Fb]. subst n. revert b Lb Fb.
  induction a as [|x a IH]; intros [|y b] Lb Fb; simpl in *; try discriminate.
  - constructor.
  - inversion Fa; inversion Fb; subst. constructor; [congruence|].
    apply IH; [assumption | lia | assumption].
Qed.

Lemma well_shaped_transport (n m : nat) (a b : batch) :
  well_shaped n m a -> same_shape a b -> well_shaped n m b.
Proof.
  intros [La Fa] H. split.
  - now rewrite <- (same_shape_length a b H).
  - clear La. induction H as [|x y a b Hxy _ IH]; [constructor|].
    inversion Fa; subst. constructor; [congruence | auto].
Qed.

Lemma well_shaped_repeat (n m : nat) (v : R) : well_shaped n m (repeat (repeat v m) n).
Proof.
  split; [apply repeat_length|].
  apply Forall_forall. intros row H. apply repeat_spec in H. subst.
  apply repeat_length.
Qed.

Lemma tzip_shape (f : R -> R -> R) (a b c : batch) :
  tzip f a b = Some c -> same_shape a c /\ same_shape b c.
Proof.
  unfold tzip. revert b c. induction a as [|x a IH]; intros [|y b] c; simpl;
    try discriminate.
  - intros E. injection E as <-. split; constructor.
  - destruct (zip_with _ x y) as [r|] eqn:Er; [|discriminate].
    destruct (zip_with _ a b) as [rs|] eqn:Ers; [|discriminate].
    intros E. injection E as <-.
    destruct (zip_with_length _ _ _ _ Er). destruct (IH b rs Ers).
    split; constructor; assumption.
Qed.

Lemma tzip_total (f : R -> R -> R) (a b : batch) :
  same_shape a b -> tzip f a b = Some (map2 (map2 f) a b).
Proof.
  unfold tzip. induction 1 as [|x y a b Hxy _ IH]; simpl; [reflexivity|].
  rewrite zip_with_total by exact Hxy. now rewrite IH.
Qed.

Lemma tzip_zeros (f : R -> R -> R) (u x : batch) :
  same_shape x u -> tzip f u (zeros_like x) = Some (map (map (fun uv => f uv 0)) u).
Proof.
  intros H. unfold zeros_like. rewrite tzip_map_r.
  unfold tzip. induction H as [|r r' x u Hr _ IH]; simpl; [reflexivity|].
  rewrite IH. clear IH.
  replace (zip_with (fun u0 _ : R => Some (f u0 0)) r' r)
    with (Some (map (fun uv => f uv 0) r')); [reflexivity|].
  revert r Hr. induction r' as [|v r' IH]; intros [|w r] Hr; simpl in *;
    try discriminate; [reflexivity|].
  now rewrite <- IH by lia.
Qed.

(** ** Computations with random draws *)

Section RandLaws.
Context {rng A B : Type}.

Lemma bind_ret (a : A) (k : A -> Rand rng B) (g : rng) : bind (ret a) k g = k a g.
Proof. reflexivity. Qed.

Lemma bind_lift_Some (o : option A) (a : A) (k : A -> Rand rng B) (g : rng) :
  o = Some a -> bind (lift o) k g = k a g.
Proof. intros ->. reflexivity. Qed.

Lemma bind_lift (o : option A) (k : A -> Rand rng B) (g : rng) :
  bind (lift o) k g = match o with Some a => k a g | None => None end.
Proof. destruct o; reflexivity. Qed.

End RandLaws.

(** ** The update of one sampling step *)

Lemma firstn_double {A : Type} (l : list A) : firstn (length l) (l ++ l) = l.
Proof.
  rewrite firstn_app, firstn_all, Nat.sub_diag. simpl. apply app_nil_r.
Qed.

Lemma last_cons_default {A : Type} (l : list A) (a d : A) : last (a :: l) d = last l a.
Proof.
  revert a d. induction l as [|b l IH]; intros a d; [reflexivity|].
  change (last (b :: l) d = last (b :: l) a). now rewrite !IH.
Qed.

(** The update as the code computes it, with noise [z], is the update of
    the specification for the coefficients [1 / sa], [c] and [sb]. *)
Lemma update_with_noise (x eps z : batch) (c sa sb : R) :
  (d <- tsub x (muls eps c) ;; tadd (smul (1 / sa) d) (smul sb z))
  = (u <- tzip (fun xv ev => (xv - ev * c) / sa) x eps ;;
     tzip (fun uv zv => uv + sb * zv) u z).
Proof.
  unfold tsub, tadd, muls, smul. rewrite tzip_map_r.
  rewrite (tzip_ext (fun xv ev => (xv - ev * c) / sa)
                    (fun xv ev => 1 / sa * (xv - ev * c)))
    by (intros; unfold Rdiv; ring).
  rewrite <- (tzip_map_out (fun xv ev => xv - ev * c) (fun v => 1 / sa * v)).
  destruct (tzip (fun u v => u - v * c) x eps) as [d|]; [|reflexivity].
  cbn [obind option_map]. rewrite !tzip_map_l, tzip_map_r. reflexivity.
Qed.

(** At the last step the code adds the scalar [sb * 0]. *)
Lemma update_last_step (x eps : batch) (c sa sb : R) :
  (d <- tsub x (muls eps c) ;; Some (adds (smul (1 / sa) d) (sb * 0)))
  = (u <- tzip (fun xv ev => (xv - ev * c) / sa) x eps ;;
     tzip (fun uv zv => uv + sb * zv) u (zeros_like x)).
Proof.
  unfold tsub, muls. rewrite tzip_map_r.
  rewrite (tzip_ext (fun xv ev => (xv - ev * c) / sa)
                    (fun xv ev => 1 / sa * (xv - ev * c)))
    by (intros; unfold Rdiv; ring).
  rewrite <- (tzip_map_out (fun xv ev => xv - ev * c) (fun v => 1 / sa * v)).
  destruct (tzip (fun u v => u - v * c) x eps) as [d|] eqn:E; [|reflexivity].
  cbn [obind option_map]. rewrite tzip_zeros; [reflexivity|].
  apply same_shape_sym, same_shape_map_l, same_shape_sym.
  now destruct (tzip_shape _ _ _ _ E).
Qed.

Lemma spec_update_shape (beta1 beta2 : R) (T i : nat) (x eps z x' : batch) :
  spec_update beta1 beta2 T i x eps z = Some x' -> same_shape x x'.
Proof.
  unfold spec_update.
  destruct (tzip _ x eps) as [u|] eqn:Eu; [|discriminate]. cbn [obind].
  intros Ex. destruct (tzip_shape _ _ _ _ Eu) as [Hxu _].
  destruct (tzip_shape _ _ _ _ Ex) as [Hux _].
  exact (same_shape_trans _ _ _ Hxu Hux).
Qed.

Lemma spec_update_total (beta1 beta2 : R) (T i n m : nat) (x eps z : batch) :
  well_shaped n m x -> well_shaped n m eps -> well_shaped n m z ->
  exists x', spec_update beta1 beta2 T i x eps z = Some x' /\ well_shaped n m x'.
Proof.
  intros Hx He Hz. unfold spec_update.
  rewrite (tzip_total _ x eps) by exact (well_shaped_same n m _ _ Hx He).
  cbn [obind].
  assert (Hu : well_shaped n m
                 (map2 (map2 (fun xv ev =>
                    (xv - ev * ((1 - alpha_at beta1 beta2 T i)
                                / sqrt (1 - alpha_prod beta1 beta2 T i)))
                    / sqrt (alpha_at beta1 beta2 T i))) x eps)).
  { apply (well_shaped_transport n m x); [exact Hx|].
    refine (proj1 (tzip_shape _ x eps _ _)).
    apply tzip_total. exact (well_shaped_same n m _ _ Hx He). }
  eexists. split.
  - apply tzip_total. exact (well_shaped_same n m _ _ Hu Hz).
  - apply (well_shaped_transport n m _ _ Hu).
    refine (proj1 (tzip_shape _ _ z _ _)).
    apply tzip_total. exact (well_shaped_same n m _ _ Hu Hz).
Qed.

(** ** The lengths of the remaining buffers *)

Section BufferLengths.
Variables (beta1 beta2 : R) (T : nat) (s : schedules).
Hypothesis Hs : ddpm_schedules beta1 beta2 T = Some s.

Lemma oneover_sqrta_length : length (oneover_sqrta s) = S T.
Proof.
  destruct (ddpm_schedules_fields _ _ _ s Hs) as (_ & _ & _ & -> & _).
  now rewrite length_map, (alpha_t_length beta1 beta2 T).
Qed.

Lemma sqrt_beta_t_length : length (sqrt_beta_t s) = S T.
Proof.
  destruct (ddpm_schedules_fields _ _ _ s Hs) as (_ & _ & _ & _ & -> & _).
  now rewrite length_map, beta_t_length.
Qed.

Lemma mab_over_sqrtmab_length : length (mab_over_sqrtmab s) = S T.
Proof.
  destruct (ddpm_schedules_fields _ _ _ s Hs) as (_ & _ & _ & _ & _ & _ & _ & _ & ->).
  rewrite map2_length; rewrite (alpha_t_length beta1 beta2 T) by exact Hs;
    [reflexivity | now rewrite (sqrtmab_length beta1 beta2 T)].
Qed.

(** The three coefficients of the sampling step at a timestep of the
    loop, in closed form. *)
Lemma sampling_coefficients (i : nat) :
  (1 <= i <= T)%nat ->
  nth_error (oneover_sqrta s) i = Some (1 / sqrt (alpha_at beta1 beta2 T i)) /\
  nth_error (mab_over_sqrtmab s) i
  = Some ((1 - alpha_at beta1 beta2 T i) / sqrt (1 - alpha_prod beta1 beta2 T i)) /\
  nth_error (sqrt_beta_t s) i = Some (sqrt (beta_at beta1 beta2 T i)).
Proof.
  intros Hi.
  destruct (ddpm_schedules_fields _ _ _ s Hs) as (Hb12 & Hb2 & _).
  repeat split.
  - rewrite (nth_error_nth' _ 0) by (rewrite oneover_sqrta_length; lia).
    now rewrite (oneover_sqrta_nth beta1 beta2 T s Hs) by lia.
  - rewrite (nth_error_nth' _ 0) by (rewrite mab_over_sqrtmab_length; lia).
    rewrite (mab_over_sqrtmab_nth beta1 beta2 T s Hs) by lia.
    now rewrite exp_log_alpha_sum by (assumption || lia).
  - rewrite (nth_error_nth' _ 0) by (rewrite sqrt_beta_t_length; lia).
    now rewrite (sqrt_beta_t_nth beta1 beta2 T s Hs) by lia.
Qed.

(** The two coefficients of the training step. *)
Lemma training_coefficients (t : nat) :
  (1 <= t <= T)%nat ->
  nth_error (sqrtab s) t = Some (sqrt (alpha_prod beta1 beta2 T t)) /\
  nth_error (sqrtmab s) t = Some (sqrt (1 - alpha_prod beta1 beta2 T t)).
Proof.
  intros Ht.
  destruct (ddpm_schedules_fields _ _ _ s Hs) as (Hb12 & Hb2 & _).
  split.
  - rewrite (nth_error_nth' _ 0) by (rewrite (sqrtab_length beta1 beta2 T); [lia | exact Hs]).
    rewrite (sqrtab_nth beta1 beta2 T s Hs) by lia.
    now rewrite exp_log_alpha_sum by (assumption || lia).
  - rewrite (nth_error_nth' _ 0) by (rewrite (sqrtmab_length beta1 beta2 T); [lia | exact Hs]).
    rewrite (sqrtmab_nth beta1 beta2 T s Hs) by lia.
    now rewrite exp_log_alpha_sum by (assumption || lia).
Qed.

End BufferLengths.

(** ** The sampling loop *)

Lemma timesteps_S (k : nat) : timesteps (S k) = S k :: timesteps k.
Proof.
  unfold timesteps. rewrite seq_S, rev_app_distr. reflexivity.
Qed.

Section Sampling.
Variable rng : Type.
Variable randn : nat -> nat -> rng -> batch * rng.
Variables (net : batch -> list R -> option batch) (beta1 beta2 : R) (T : nat) (p : R).
Variable self : DDPM.
Variables (n_sample m : nat).
Hypothesis Hinit : DDPM_init net (beta1, beta2) T p = Some self.

(** The random generator returns tensors of the shape asked for. *)
Hypothesis randn_shape : forall n k g, well_shaped n k (fst (randn n k g)).

(** The network treats the samples of a batch one by one: on a batch
    repeated twice with its timesteps, one per sample, the first half of
    its answer is its answer on the batch. *)
Hypothesis net_rowwise :
  forall x t, length t = length x ->
    option_map (firstn (length x)) (net (x ++ x) (t ++ t)) = net x t.

Lemma sample_step_spec (i : nat) (x : batch) (g : rng) :
  length x = n_sample -> (1 <= i <= T)%nat ->
  sample_step rng randn self n_sample m i x g
  = spec_step rng randn net beta1 beta2 T n_sample m i x g.
Proof.
  intros Hlen Hi.
  destruct (DDPM_init_stores_drop_prob _ _ _ _ _ Hinit) as (_ & HnT & Hnn & Hs).
  cbn [fst snd] in Hs.
  destruct (sampling_coefficients beta1 beta2 T _ Hs i Hi) as (Eo & Em & Eb).
  unfold sample_step, spec_step. rewrite HnT, Hnn, <- Hlen.
  rewrite <- (net_rowwise x (repeat (INR i / INR T) (length x)))
    by apply repeat_length.
  unfold bind, ret, lift, torch_randn. rewrite Eo, Em, Eb.
  destruct (1 <? i)%nat.
  - destruct (randn (length x) m g) as [z g1].
    destruct (net (x ++ x) _) as [out|]; [|reflexivity].
    cbn [option_map]. rewrite firstn_double.
    unfold spec_update. rewrite <- update_with_noise.
    destruct (tsub x _) as [d|]; [|reflexivity].
    cbn [obind]. reflexivity.
  - destruct (net (x ++ x) _) as [out|]; [|reflexivity].
    cbn [option_map]. rewrite firstn_double.
    unfold spec_update. rewrite <- update_last_step.
    destruct (tsub x _) as [d|]; [|reflexivity].
    cbn [obind]. reflexivity.
Qed.

Lemma spec_step_shape (i : nat) (x x' : batch) (g g' : rng) :
  spec_step rng randn net beta1 beta2 T n_sample m i x g = Some (x', g') ->
  same_shape x x'.
Proof.
  unfold spec_step, bind, ret, lift, torch_randn.
  destruct (1 <? i)%nat.
  - destruct (randn n_sample m g) as [z g1].
    destruct (net x _) as [eps|]; [|discriminate].
    destruct (spec_update _ _ _ _ _ _ _) as [u|] eqn:E; [|discriminate].
    intros E'. injection E' as <- _. exact (spec_update_shape _ _ _ _ _ _ _ _ E).
  - destruct (net x _) as [eps|]; [|discriminate].
    destruct (spec_update _ _ _ _ _ _ _) as [u|] eqn:E; [|discriminate].
    intros E'. injection E' as <- _. exact (spec_update_shape _ _ _ _ _ _ _ _ E).
Qed.

(** The loop of the code over [k, k-1, ..., 1] and the countdown of the
    specification from [k] reach the same batch with the same generator. *)
Lemma sample_loop_spec (k : nat) :
  (k <= T)%nat ->
  forall (x : batch) (store : list batch) (g : rng),
    length x = n_sample ->
    option_map (fun r => (fst (fst r), snd r))
               (sample_loop rng randn self n_sample m (timesteps k) x store g)
    = spec_sample_from rng randn net beta1 beta2 T n_sample m k x g.
Proof.
  induction k as [|k IH]; intros Hk x store g Hlen; [reflexivity|].
  rewrite timesteps_S. cbn [sample_loop spec_sample_from]. unfold bind.
  rewrite sample_step_spec by (assumption || lia).
  destruct (spec_step _ _ _ _ _ _ _ _ _ x g) as [[x' g']|] eqn:E; [|reflexivity].
  apply IH; [lia|].
  rewrite <- Hlen. symmetry. exact (same_shape_length _ _ (spec_step_shape _ _ _ _ _ E)).
Qed.

(** The network returns a prediction of the shape of its image input. *)
Hypothesis net_shape :
  forall x t, well_shaped n_sample m x -> length t = n_sample ->
              exists y, net x t = Some y /\ well_shaped n_sample m y.

Lemma spec_step_total (i : nat) (x : batch) (g : rng) :
  well_shaped n_sample m x ->
  exists x' g', spec_step rng randn net beta1 beta2 T n_sample m i x g = Some (x', g')
                /\ well_shaped n_sample m x'.
Proof.
  intros Hx. unfold spec_step, bind, ret, lift, torch_randn.
  destruct (net_shape x (repeat (INR i / INR T) n_sample) Hx (repeat_length _ _))
    as (eps & Ee & He).
  destruct (1 <? i)%nat.
  - pose proof (randn_shape n_sample m g) as Hz.
    destruct (randn n_sample m g) as [z g1]. cbn [fst] in Hz. rewrite Ee.
    destruct (spec_update_total beta1 beta2 T i n_sample m x eps z Hx He Hz)
      as (x' & -> & Hx').
    now exists x', g1.
  - rewrite Ee.
    assert (Hz : well_shaped n_sample m (zeros_like x)).
    { apply (well_shaped_transport n_sample m x _ Hx).
      apply same_shape_sym, same_shape_map_l, same_shape_refl. }
    destruct (spec_update_total beta1 beta2 T i n_sample m x eps _ Hx He Hz)
      as (x' & -> & Hx').
    now exists x', g.
Qed.

Lemma spec_sample_from_total (k : nat) (x : batch) (g : rng) :
  well_shaped n_sample m x ->
  exists x' g', spec_sample_from rng randn net beta1 beta2 T n_sample m k x g
                = Some (x', g').
Proof.
  revert x g. induction k as [|k IH]; intros x g Hx.
  - now exists x, g.
  - cbn [spec_sample_from]. unfold bind.
    destruct (spec_step_total (S k) x g Hx) as (x' & g' & -> & Hx').
    apply IH. exact Hx'.
Qed.

Lemma sample_states_total (steps : list nat) (x : batch) (g : rng) :
  Forall (fun i => (1 <= i <= T)%nat) steps -> well_shaped n_sample m x ->
  exists states g',
    sample_states rng randn self n_sample m steps x g = Some (states, g').
Proof.
  intros Hsteps. revert x g. induction Hsteps as [|i steps Hi _ IH]; intros x g Hx.
  - now exists [], g.
  - cbn [sample_states]. unfold bind at 1.
    rewrite sample_step_spec by (exact Hi || exact (proj1 Hx)).
    destruct (spec_step_total i x g Hx) as (x' & g' & -> & Hx').
    destruct (IH x' g' Hx') as (states & g'' & E).
    unfold bind, ret. rewrite E. now eexists _, _.
Qed.

Lemma sample_loop_total (k : nat) (x : batch) (store : list batch) (g : rng) :
  (k <= T)%nat -> well_shaped n_sample m x ->
  exists x' store' g',
    sample_loop rng randn self n_sample m (timesteps k) x store g
    = Some ((x', store'), g').
Proof.
  intros Hk Hx.
  pose proof (sample_loop_spec k Hk x store g (proj1 Hx)) as E.
  destruct (spec_sample_from_total k x g Hx) as (x' & g' & Ex). rewrite Ex in E.
  destruct (sample_loop _ _ _ _ _ _ _ _ _) as [[[x1 store1] g1]|]; [|discriminate].
  now exists x1, store1, g1.
Qed.

End Sampling.

Lemma DDPM_init_accepts (net : batch -> list R -> option batch)
      (beta1 beta2 : R) (T : nat) (p : R) :
  beta1 < beta2 -> beta2 < 1 -> exists self, DDPM_init net (beta1, beta2) T p = Some self.
Proof.
  intros H12 H2. unfold DDPM_init. cbn [fst snd].
  destruct (ddpm_schedules_accepts beta1 beta2 T H12 H2) as [s ->].
  eexists. reflexivity.
Qed.

Lemma DDPM_sample_returns
      (rng : Type) (randn : nat -> nat -> rng -> batch * rng)
      (net : batch -> list R -> option batch) (beta1 beta2 : R) (T : nat) (p : R)
      (self : DDPM) (n_sample : nat) (size : nat * nat * nat) (g : rng) :
  (forall n k g, well_shaped n k (fst (randn n k g))) ->
  DDPM_init net (beta1, beta2) T p = Some self ->
  (forall x t, length t = length x ->
     option_map (firstn (length x)) (net (x ++ x) (t ++ t)) = net x t) ->
  (forall x t, well_shaped n_sample (size_numel size) x -> length t = n_sample ->
               exists y, net x t = Some y /\ well_shaped n_sample (size_numel size) y) ->
  exists x store g', DDPM_sample rng randn self n_sample size g = Some ((x, store), g').
Proof.
  intros Hrandn Hinit Hrow Hshape.
  destruct (DDPM_init_stores_drop_prob _ _ _ _ _ Hinit) as (_ & HnT & _).
  unfold DDPM_sample, bind, torch_randn. rewrite HnT.
  pose proof (Hrandn n_sample (size_numel size) g) as Hx0.
  destruct (randn n_sample (size_numel size) g) as [x0 g0]. cbn [fst] in Hx0.
  exact (sample_loop_total rng randn net beta1 beta2 T p self n_sample
           (size_numel size) Hinit Hrandn Hrow Hshape T x0 [] g0 (le_n T) Hx0).
Qed.

(** ** The generator and the network of the examples *)

Lemma map2_app {A B C : Type} (f : A -> B -> C) (a a' : list A) (b b' : list B) :
  length a = length b -> map2 f (a ++ a') (b ++ b') = map2 f a b ++ map2 f a' b'.
Proof.
  revert b. induction a as [|x a IH]; intros [|y b] H; simpl in *; try discriminate.
  - reflexivity.
  - now rewrite IH by lia.
Qed.

Lemma row_scale_total (c : list R) (x : batch) :
  length c = length x ->
  row_scale c x = Some (map2 (fun ck row => map (fun v => ck * v) row) c x).
Proof. intros H. unfold row_scale. now apply zip_with_total. Qed.

Lemma same_shape_scaled (c : list R) (x : batch) :
  length c = length x ->
  same_shape x (map2 (fun ck row => map (fun v => ck * v) row) c x).
Proof.
  revert c. induction x as [|r x IH]; intros [|ck c] H; simpl in *; try discriminate;
    constructor.
  - now rewrite length_map.
  - apply IH. lia.
Qed.

Lemma counting_randint_range (low high k g : nat) :
  (low < high)%nat ->
  length (fst (counting_randint low high k g)) = k /\
  Forall (fun v => (low <= v < high)%nat) (fst (counting_randint low high k g)).
Proof.
  intros H. unfold counting_randint. cbn [fst]. split.
  - now rewrite length_map, length_seq.
  - apply Forall_forall. intros v Hv. apply in_map_iff in Hv as (j & <- & _).
    pose proof (Nat.mod_upper_bound (g + j) (high - low) ltac:(lia)). lia.
Qed.

Lemma counting_randn_shape (n k g : nat) : well_shaped n k (fst (counting_randn n k g)).
Proof.
  unfold counting_randn. cbn [fst]. split.
  - now rewrite length_map, length_seq.
  - apply Forall_forall. intros row Hrow. apply in_map_iff in Hrow as (j & <- & _).
    apply repeat_length.
Qed.

Lemma scale_by_time_same_shape (x : batch) (t : list R) (y : batch) :
  scale_by_time x t = Some y -> same_shape x y.
Proof.
  unfold scale_by_time. intros E.
  assert (H : length t = length x).
  { unfold row_scale in E. destruct (zip_with_length _ _ _ _ E) as [H1 H2]. congruence. }
  rewrite (row_scale_total t x H) in E. injection E as <-.
  now apply same_shape_scaled.
Qed.

Lemma scale_by_time_total (n m : nat) (x : batch) (t : list R) :
  well_shaped n m x -> length t = n ->
  exists y, scale_by_time x t = Some y /\ well_shaped n m y.
Proof.
  intros Hx Ht. assert (H : length t = length x) by (rewrite (proj1 Hx); exact Ht).
  unfold scale_by_time. rewrite (row_scale_total t x H). eexists. split; [reflexivity|].
  apply (well_shaped_transport n m x _ Hx). now apply same_shape_scaled.
Qed.

Lemma scale_by_time_rowwise (x : batch) (t : list R) :
  length t = length x ->
  option_map (firstn (length x)) (scale_by_time (x ++ x) (t ++ t)) = scale_by_time x t.
Proof.
  intros H. unfold scale_by_time.
  rewrite (row_scale_total t x H).
  rewrite (row_scale_total (t ++ t) (x ++ x)) by (rewrite !length_app; lia).
  cbn [option_map]. f_equal. rewrite (map2_app _ t t x x H).
  replace (length x)
    with (length (map2 (fun ck row => map (fun v => ck * v) row) t x))
    by (rewrite map2_length; lia).
  apply firstn_double.
Qed.

(** C4: for a wrapper built by [DDPM.__init__], a generator that returns
    tensors of the shape asked for, and a network that treats the samples
    of a batch one by one, when it is given one timestep per sample, and
    returns a prediction of the shape of its input, [DDPM.sample]
    returns, and its final batch is the one reached
    by stepping i from T down to 1 with fresh noise z (zero at i = 1),
    the prediction eps of the network at (x, i/T), and the update
    (x - eps (1 - alpha_i)/sqrt(1 - alphabar_i))/sqrt(alpha_i)
    + sqrt(beta_i) z, with the same generator state at the end. *)
Theorem DDPM_sample_update
        (rng : Type) (randn : nat -> nat -> rng -> batch * rng)
        (net : batch -> list R -> option batch) (beta1 beta2 : R) (T : nat) (p : R)
        (self : DDPM) (n_sample : nat) (size : nat * nat * nat) (g : rng) :
  (forall n k g, well_shaped n k (fst (randn n k g))) ->
  DDPM_init net (beta1, beta2) T p = Some self ->
  (forall x t, length t = length x ->
     option_map (firstn (length x)) (net (x ++ x) (t ++ t)) = net x t) ->
  (forall x t, well_shaped n_sample (size_numel size) x -> length t = n_sample ->
               exists y, net x t = Some y /\ well_shaped n_sample (size_numel size) y) ->
  exists x store g',
    DDPM_sample rng randn self n_sample size g = Some ((x, store), g') /\
    spec_sample rng randn net beta1 beta2 T n_sample (size_numel size) g = Some (x, g').
Proof.
  intros Hrandn Hinit Hrow Hshape.
  destruct (DDPM_init_stores_drop_prob _ _ _ _ _ Hinit) as (_ & HnT & _).
  unfold DDPM_sample, spec_sample, bind, torch_randn. rewrite HnT.
  pose proof (Hrandn n_sample (size_numel size) g) as Hx0.
  destruct (randn n_sample (size_numel size) g) as [x0 g0]. cbn [fst] in Hx0.
  pose proof (sample_loop_spec rng randn net beta1 beta2 T p self n_sample
                (size_numel size) Hinit Hrow T (le_n T) x0 [] g0 (proj1 Hx0)) as E.
  destruct (spec_sample_from_total rng randn net beta1 beta2 T n_sample
              (size_numel size) Hrandn Hshape T x0 g0 Hx0) as (x & g' & Ex).
  rewrite Ex in E |- *.
  destruct (sample_loop _ _ _ _ _ _ _ _ _) as [[[x' store] g1]|]; [|discriminate].
  cbn in E. injection E as -> ->.
  now exists x, store, g'.
Qed.

Lemma DDPM_sample_update_witness :
  exists self x store g',
    DDPM_init scale_by_time (1/10, 2/10) 3 (1/10) = Some self /\
    DDPM_sample nat counting_randn self 2 (1, 2, 2)%nat 0%nat = Some ((x, store), g') /\
    spec_sample nat counting_randn scale_by_time (1/10) (2/10) 3 2
                (size_numel (1, 2, 2)%nat) 0%nat
    = Some (x, g').
Proof.
  destruct (DDPM_init_accepts scale_by_time (1/10) (2/10) 3 (1/10))
    as [self Hself]; [lra | lra |].
  exists self.
  destruct (DDPM_sample_update nat counting_randn scale_by_time (1/10) (2/10) 3 (1/10)
              self 2 (1, 2, 2)%nat 0%nat)
    as (x & store & g' & H1 & H2).
  - exact counting_randn_shape.
  - exact Hself.
  - exact scale_by_time_rowwise.
  - intros x t. apply scale_by_time_total.
  - exists x, store, g'. repeat split; assumption.
Defined.

(** ** The snapshots *)

Section Snapshots.
Variable rng : Type.
Variable randn : nat -> nat -> rng -> batch * rng.
Variable self : DDPM.
Variables (n_sample m : nat).

Lemma snapshots_of_cons (keep : nat -> bool) (i : nat) (x : batch)
      (states : list (nat * batch)) :
  snapshots_of keep ((i, x) :: states)
  = (if keep i then [x] else []) ++ snapshots_of keep states.
Proof. unfold snapshots_of. cbn [filter fst]. destruct (keep i); reflexivity. Qed.

Lemma snapshots_of_length (keep : nat -> bool) (states : list (nat * batch)) :
  length (snapshots_of keep states) = length (filter keep (map fst states)).
Proof.
  induction states as [|[i x] states IH]; [reflexivity|].
  rewrite snapshots_of_cons, length_app, IH. cbn [map fst filter].
  destruct (keep i); reflexivity.
Qed.

(** The loop returns the last state and appends to the store the states
    the test keeps. *)
Lemma sample_loop_states (steps : list nat) :
  forall (x : batch) (store : list batch) (g : rng),
    sample_loop rng randn self n_sample m steps x store g
    = bind (sample_states rng randn self n_sample m steps x)
           (fun states =>
              ret (last (map snd states) x,
                   store ++ snapshots_of (keeps_snapshot (n_T self)) states)) g.
Proof.
  induction steps as [|i steps IH]; intros x store g.
  - cbn [sample_loop sample_states]. unfold bind, ret. cbn. now rewrite app_nil_r.
  - cbn [sample_loop sample_states]. unfold bind at 1 2 3.
    destruct (sample_step rng randn self n_sample m i x g) as [[x' g']|];
      [|reflexivity].
    rewrite IH. unfold bind.
    destruct (sample_states rng randn self n_sample m steps x' g') as [[states g'']|];
      [|reflexivity].
    unfold ret. cbn [map snd]. rewrite last_cons_default, snapshots_of_cons.
    destruct (keeps_snapshot (n_T self) i); cbn [app];
      rewrite <- ?app_assoc; reflexivity.
Qed.

Lemma sample_states_steps (steps : list nat) :
  forall (x : batch) (g g' : rng) (states : list (nat * batch)),
    sample_states rng randn self n_sample m steps x g = Some (states, g') ->
    map fst states = steps.
Proof.
  induction steps as [|i steps IH]; intros x g g' states.
  - cbn. intros E. now injection E as <- _.
  - cbn [sample_states]. unfold bind, ret.
    destruct (sample_step rng randn self n_sample m i x g) as [[x' g1]|];
      [|discriminate].
    destruct (sample_states rng randn self n_sample m steps x' g1) as [[rest g2]|] eqn:E;
      [|discriminate].
    intros E'. injection E' as <- _. cbn [map fst]. f_equal. exact (IH _ _ _ _ E).
Qed.

End Snapshots.

Lemma keeps_snapshot_iff (T i : nat) :
  keeps_snapshot T i = true <-> (i mod 20 = 0 \/ i = T \/ i < 8)%nat.
Proof.
  unfold keeps_snapshot. rewrite !orb_true_iff, !Nat.eqb_eq, Nat.ltb_lt. tauto.
Qed.

(** The last [k] timesteps of the loop are [k, k-1, ..., 1]. *)
Lemma timesteps_tail (T k : nat) :
  skipn (T - k) (timesteps T) = timesteps (Nat.min k T).
Proof.
  induction T as [|T IH].
  - now rewrite Nat.min_0_r.
  - destruct (Nat.le_gt_cases (S T) k) as [H|H].
    + replace (S T - k)%nat with 0%nat by lia.
      now replace (Nat.min k (S T)) with (S T) by lia.
    + replace (S T - k)%nat with (S (T - k)) by lia.
      rewrite timesteps_S. cbn [skipn]. rewrite IH. f_equal. lia.
Qed.

Lemma timesteps_In (T i : nat) : In i (timesteps T) <-> (1 <= i <= T)%nat.
Proof. unfold timesteps. rewrite <- in_rev, in_seq. lia. Qed.

(** C6 (amended): [DDPM.sample] returns the last state of its loop and,
    in the order of the loop, the states whose timestep i passes the
    test; for a timestep of the loop the test holds exactly when i is
    divisible by 20, or i = T (the first step), or i is one of the final 7
    steps of the loop (i < 8). *)
Theorem DDPM_sample_snapshots
        (rng : Type) (randn : nat -> nat -> rng -> batch * rng)
        (self : DDPM) (n_sample : nat) (size : nat * nat * nat) (g : rng) :
  DDPM_sample rng randn self n_sample size g
  = bind (torch_randn rng randn n_sample (size_numel size))
         (fun x0 =>
            bind (sample_states rng randn self n_sample (size_numel size)
                                (timesteps (n_T self)) x0)
                 (fun states =>
                    ret (last (map snd states) x0,
                         snapshots_of (keeps_snapshot (n_T self)) states))) g
  /\ (forall x0 g0 states g',
        sample_states rng randn self n_sample (size_numel size)
                      (timesteps (n_T self)) x0 g0 = Some (states, g') ->
        map fst states = timesteps (n_T self))
  /\ (forall i, In i (timesteps (n_T self)) ->
        (keeps_snapshot (n_T self) i = true <->
         (i mod 20 = 0)%nat \/ i = n_T self \/
         In i (skipn (n_T self - 7) (timesteps (n_T self))))).
Proof.
  split; [|split].
  - unfold DDPM_sample, bind at 1 2, torch_randn.
    destruct (randn n_sample (size_numel size) g) as [x0 g0].
    now rewrite sample_loop_states.
  - intros x0 g0 states g' E. exact (sample_states_steps _ _ _ _ _ _ _ _ _ _ E).
  - intros i Hi. apply timesteps_In in Hi.
    rewrite keeps_snapshot_iff, timesteps_tail, timesteps_In. lia.
Qed.

(** C6, as stated, fails: with T = 10 the loop keeps 8 snapshots (at
    i = 10 and at i = 7, ..., 1), while every 20th step, the first step
    and the final 8 steps are 9 timesteps; the step i = 8 is not kept. *)
Lemma snapshot_at_step_8_is_missing :
  exists self x store,
    DDPM_init (fun x _ => Some x) (1/10, 2/10) 10 (1/10) = Some self /\
    DDPM_sample unit (fun n k g => (repeat (repeat 0 k) n, g)) self 1 (1, 1, 1)%nat tt
    = Some ((x, store), tt) /\
    length store = 8%nat /\
    length (filter (spec_keeps_snapshot 10) (timesteps 10)) = 9%nat /\
    keeps_snapshot 10 8 = false /\ spec_keeps_snapshot 10 8 = true.
Proof.
  destruct (DDPM_init_accepts (fun x _ => Some x) (1/10) (2/10) 10 (1/10))
    as [self Hself]; [lra | lra |].
  destruct (DDPM_init_stores_drop_prob _ _ _ _ _ Hself) as (_ & HnT & _).
  set (randn0 := fun (n k : nat) (g : unit) => (repeat (repeat 0 k) n, g)).
  destruct (sample_states_total unit randn0 (fun x _ => Some x) (1/10) (2/10) 10 (1/10)
              self 1 (size_numel (1, 1, 1)%nat) Hself
              (fun n k g => well_shaped_repeat n k 0)
              (fun x t _ => eq_trans (f_equal Some (firstn_double x)) eq_refl)
              (fun x t Hx _ => ex_intro _ x (conj eq_refl Hx))
              (timesteps 10) (repeat (repeat 0 (size_numel (1, 1, 1)%nat)) 1) tt)
    as (states & g' & E).
  { apply Forall_forall. intros i Hi. now apply timesteps_In. }
  { apply well_shaped_repeat. }
  destruct g'.
  exists self, (last (map snd states) (repeat (repeat 0 (size_numel (1, 1, 1)%nat)) 1)),
    (snapshots_of (keeps_snapshot 10) states).
  split; [exact Hself|]. split; [|split; [|repeat split]].
  - unfold DDPM_sample, bind, torch_randn. rewrite HnT. fold randn0.
    change (randn0 1%nat (size_numel (1, 1, 1)%nat) tt)
      with (repeat (repeat 0 (size_numel (1, 1, 1)%nat)) 1, tt).
    cbv iota beta. rewrite sample_loop_states. unfold bind, ret. rewrite E, HnT.
    reflexivity.
  - rewrite snapshots_of_length.
    rewrite (sample_states_steps _ _ _ _ _ _ _ _ _ _ E). reflexivity.
Qed.

(** ** The training step *)

Lemma gather_closed_form (buf : list R) (f : nat -> R) (idx : list nat) :
  Forall (fun t => nth_error buf t = Some (f t)) idx ->
  gather buf idx = Some (map f idx).
Proof.
  induction 1 as [|t idx Ht _ IH]; [reflexivity|].
  cbn [gather map]. now rewrite Ht, IH.
Qed.

Lemma same_shape_row_scale (c d : list R) (x noise : batch) :
  length c = length x -> length d = length noise -> same_shape x noise ->
  same_shape (map2 (fun ck row => map (fun v => ck * v) row) c x)
             (map2 (fun ck row => map (fun v => ck * v) row) d noise).
Proof.
  intros Hc Hd H. revert c d Hc Hd.
  induction H as [|r r' x noise Hr _ IH]; intros [|ck c] [|dk d] Hc Hd;
    simpl in *; try discriminate; constructor.
  - now rewrite !length_map.
  - apply IH; lia.
Qed.

Lemma corrupt_row (c d : R) (r r' : list R) :
  map2 Rplus (map (fun v => c * v) r) (map (fun v => d * v) r')
  = map2 (fun x e => c * x + d * e) r r'.
Proof.
  revert r'. induction r as [|v r IH]; intros [|w r']; simpl; try reflexivity.
  now rewrite IH.
Qed.

(** The corrupted sample as the code builds it, from the gathered
    coefficients [fa t] and [fb t]. *)
Lemma corrupt_rows (fa fb : nat -> R) (ts : list nat) (x noise : batch) :
  map2 (map2 Rplus)
       (map2 (fun ck row => map (fun v => ck * v) row) (map fa ts) x)
       (map2 (fun ck row => map (fun v => ck * v) row) (map fb ts) noise)
  = map2 (fun t rows => map2 (fun xv e => fa t * xv + fb t * e) (fst rows) (snd rows))
         ts (combine x noise).
Proof.
  revert x noise. induction ts as [|t ts IH]; intros [|r x] [|r' noise]; simpl;
    try reflexivity.
  now rewrite corrupt_row, IH.
Qed.

(** The sample [DDPM.forward] hands to the network and the loss it takes
    from the prediction, once the timesteps and the noise are drawn. *)
Lemma DDPM_forward_draws
      (rng : Type) (randint : nat -> nat -> nat -> rng -> list nat * rng)
      (randn : nat -> nat -> rng -> batch * rng)
      (net : batch -> list R -> option batch) (beta1 beta2 : R) (T : nat) (p : R)
      (self : DDPM) (n m : nat) (x : batch) (g : rng) :
  (forall low high k g, (low < high)%nat ->
     length (fst (randint low high k g)) = k /\
     Forall (fun v => (low <= v < high)%nat) (fst (randint low high k g))) ->
  (forall n k g, well_shaped n k (fst (randn n k g))) ->
  (0 < T)%nat -> DDPM_init net (beta1, beta2) T p = Some self ->
  (1 <= n)%nat -> (1 <= m)%nat -> well_shaped n m x ->
  exists (ts : list nat) (noise : batch) (g1 g' : rng),
    randint 1%nat (T + 1)%nat n g = (ts, g1) /\ randn n m g1 = (noise, g') /\
    length ts = n /\ Forall (fun t => (1 <= t <= T)%nat) ts /\
    well_shaped n m noise /\
    well_shaped n m (spec_corrupt beta1 beta2 T ts x noise) /\
    DDPM_forward rng randint randn self x g
    = match net (spec_corrupt beta1 beta2 T ts x noise)
                (map (fun t => INR t / INR T) ts) with
      | Some pred => option_map (fun loss => (loss, g')) (loss_mse noise pred)
      | None => None
      end.
Proof.
  intros Hrandint Hrandn HT Hinit Hn Hm Hx.
  destruct (DDPM_init_stores_drop_prob _ _ _ _ _ Hinit) as (_ & HnT & Hnn & Hs).
  cbn [fst snd] in Hs.
  destruct (Hrandint 1%nat (T + 1)%nat n g ltac:(lia)) as [Hlen Hrange].
  destruct (randint 1%nat (T + 1)%nat n g) as [ts g1] eqn:Ets. cbn [fst] in Hlen, Hrange.
  pose proof (Hrandn n m g1) as Hnoise.
  destruct (randn n m g1) as [noise g'] eqn:En. cbn [fst] in Hnoise.
  assert (Hts : Forall (fun t => (1 <= t <= T)%nat) ts).
  { eapply Forall_impl; [|exact Hrange]. cbv beta. intros; lia. }
  assert (Hhd : length (hd [] x) = m).
  { destruct Hx as [Lx Fx]. destruct x as [|r x]; [simpl in Lx; lia|].
    now inversion Fx. }
  assert (Lx : length (map (fun t => sqrt (alpha_prod beta1 beta2 T t)) ts) = length x)
    by (rewrite length_map, Hlen; symmetry; exact (proj1 Hx)).
  assert (Ln : length (map (fun t => sqrt (1 - alpha_prod beta1 beta2 T t)) ts)
               = length noise)
    by (rewrite length_map, Hlen; symmetry; exact (proj1 Hnoise)).
  pose proof (tzip_total Rplus _ _
                (same_shape_row_scale _ _ x noise Lx Ln
                   (well_shaped_same n m x noise Hx Hnoise))) as Eadd.
  rewrite corrupt_rows in Eadd. fold (spec_corrupt beta1 beta2 T ts x noise) in Eadd.
  assert (Hxt : well_shaped n m (spec_corrupt beta1 beta2 T ts x noise)).
  { apply (well_shaped_transport n m _ _ Hx).
    apply (same_shape_trans _ _ _ (same_shape_scaled _ x Lx)).
    exact (proj1 (tzip_shape _ _ _ _ Eadd)). }
  exists ts, noise, g1, g'. repeat split; try assumption; try apply Hnoise; try apply Hxt.
  unfold DDPM_forward, torch_randint, torch_randn_like, torch_randn.
  rewrite HnT, Hnn. unfold bind at 1.
  replace (1 <? T + 1)%nat with true by (symmetry; apply Nat.ltb_lt; lia).
  rewrite (proj1 Hx), Ets. unfold bind at 1. rewrite Hhd, En.
  rewrite (bind_lift_Some _ (map (fun t => sqrt (alpha_prod beta1 beta2 T t)) ts)).
  2:{ apply gather_closed_form. eapply Forall_impl; [|exact Hts].
      intros t Ht. exact (proj1 (training_coefficients beta1 beta2 T _ Hs t Ht)). }
  rewrite (bind_lift_Some _ (map (fun t => sqrt (1 - alpha_prod beta1 beta2 T t)) ts)).
  2:{ apply gather_closed_form. eapply Forall_impl; [|exact Hts].
      intros t Ht. exact (proj2 (training_coefficients beta1 beta2 T _ Hs t Ht)). }
  rewrite (bind_lift_Some _ _ _ _ (row_scale_total _ x Lx)).
  rewrite (bind_lift_Some _ _ _ _ (row_scale_total _ noise Ln)).
  rewrite (bind_lift_Some _ _ _ _ Eadd).
  rewrite bind_lift.
  destruct (net _ _) as [pred|]; [|reflexivity].
  unfold lift. destruct (loss_mse noise pred); reflexivity.
Qed.

Lemma combine_app_same {A B : Type} (a a' : list A) (b b' : list B) :
  length a = length b -> combine (a ++ a') (b ++ b') = combine a b ++ combine a' b'.
Proof.
  revert b. induction a as [|u a IH]; intros [|v b] H; simpl in *; try discriminate.
  - reflexivity.
  - now rewrite IH by lia.
Qed.

Lemma map2_combine {A B C : Type} (f : A -> B -> C) (a : list A) (b : list B) :
  map2 f a b = map (fun p => f (fst p) (snd p)) (combine a b).
Proof.
  revert b. induction a as [|u a IH]; intros [|v b]; simpl; try reflexivity.
  now rewrite IH.
Qed.

Lemma same_shape_entries (a b : batch) :
  same_shape a b -> length (concat a) = length (concat b).
Proof.
  induction 1 as [|r r' a b Hr _ IH]; [reflexivity|].
  simpl. rewrite !length_app. lia.
Qed.

(** The entries of [a - b], sample after sample, are the differences of
    the paired entries of [a] and [b]. *)
Lemma concat_differences (a b : batch) :
  same_shape a b ->
  concat (map2 (map2 Rminus) a b)
  = map (fun p => fst p - snd p) (combine (concat a) (concat b)).
Proof.
  induction 1 as [|r r' a b Hr _ IH]; [reflexivity|].
  simpl. rewrite (combine_app_same r _ r' _ Hr), map_app, IH, map2_combine.
  reflexivity.
Qed.

(** [nn.MSELoss] on two tensors of one shape is the mean of the squared
    differences of their entries. *)
Lemma loss_mse_spelled_out (a b : batch) :
  same_shape a b -> loss_mse a b = Some (mean_squared_error a b).
Proof.
  intros H. unfold loss_mse, tsub. rewrite (tzip_total Rminus a b H). cbn [obind].
  unfold mean_squared_error, tsum, numel.
  rewrite <- concat_map, (concat_differences a b H), map_map, length_map, length_combine.
  rewrite <- (same_shape_entries a b H), Nat.min_id. reflexivity.
Qed.

(** With a network that can answer on the batch, [DDPM.forward] returns
    a loss. *)
Lemma DDPM_forward_returns
      (rng : Type) (randint : nat -> nat -> nat -> rng -> list nat * rng)
      (randn : nat -> nat -> rng -> batch * rng)
      (net : batch -> list R -> option batch) (beta1 beta2 : R) (T : nat) (p : R)
      (self : DDPM) (n m : nat) (x : batch) (g : rng) :
  (forall low high k g, (low < high)%nat ->
     length (fst (randint low high k g)) = k /\
     Forall (fun v => (low <= v < high)%nat) (fst (randint low high k g))) ->
  (forall n k g, well_shaped n k (fst (randn n k g))) ->
  (0 < T)%nat -> DDPM_init net (beta1, beta2) T p = Some self ->
  (1 <= n)%nat -> (1 <= m)%nat -> well_shaped n m x ->
  (forall x_t t, well_shaped n m x_t -> length t = n ->
                 exists y, net x_t t = Some y /\ well_shaped n m y) ->
  exists loss g', DDPM_forward rng randint randn self x g = Some (loss, g').
Proof.
  intros Hrandint Hrandn HT Hinit Hn Hm Hx Hnet.
  destruct (DDPM_forward_draws rng randint randn net beta1 beta2 T p self n m x g
              Hrandint Hrandn HT Hinit Hn Hm Hx)
    as (ts & noise & g1 & g' & _ & _ & Hlen & _ & Hnoise & Hxt & E).
  destruct (Hnet _ (map (fun t => INR t / INR T) ts) Hxt
              ltac:(rewrite length_map; exact Hlen)) as (pred & Ep & Hp).
  rewrite Ep, (loss_mse_spelled_out noise pred (well_shaped_same n m _ _ Hnoise Hp)) in E.
  cbn [option_map] in E. eexists _, _. exact E.
Qed.

(** C3: for a wrapper built by [DDPM.__init__] with T >= 1 steps, a
    generator whose integers lie in the range asked for and whose normal
    tensors have the shape asked for, a network whose predictions have
    the shape of its input, and a batch x0 of n >= 1 images of m >= 1
    entries, [DDPM.forward] draws one timestep per sample in [1, T] and
    noise of the shape of x0, and returns the mean, over every entry of
    every sample, of the squared difference between the noise and the
    network's prediction at
    (sqrt(alphabar_t) x0 + sqrt(1 - alphabar_t) noise, t/T), or raises
    where the network does. *)
Theorem DDPM_forward_loss
        (rng : Type) (randint : nat -> nat -> nat -> rng -> list nat * rng)
        (randn : nat -> nat -> rng -> batch * rng)
        (net : batch -> list R -> option batch) (beta1 beta2 : R) (T : nat) (p : R)
        (self : DDPM) (n m : nat) (x : batch) (g : rng) :
  (forall low high k g, (low < high)%nat ->
     length (fst (randint low high k g)) = k /\
     Forall (fun v => (low <= v < high)%nat) (fst (randint low high k g))) ->
  (forall n k g, well_shaped n k (fst (randn n k g))) ->
  (forall x_t t pred, net x_t t = Some pred -> same_shape x_t pred) ->
  (0 < T)%nat -> DDPM_init net (beta1, beta2) T p = Some self ->
  (1 <= n)%nat -> (1 <= m)%nat -> well_shaped n m x ->
  exists (ts : list nat) (noise : batch) (g1 g' : rng),
    randint 1%nat (T + 1)%nat n g = (ts, g1) /\ randn n m g1 = (noise, g') /\
    length ts = n /\ Forall (fun t => (1 <= t <= T)%nat) ts /\
    well_shaped n m noise /\
    DDPM_forward rng randint randn self x g
    = option_map (fun loss => (loss, g')) (spec_loss net beta1 beta2 T ts x noise).
Proof.
  intros Hrandint Hrandn Hnet HT Hinit Hn Hm Hx.
  destruct (DDPM_forward_draws rng randint randn net beta1 beta2 T p self n m x g
              Hrandint Hrandn HT Hinit Hn Hm Hx)
    as (ts & noise & g1 & g' & Ets & En & Hlen & Hts & Hnoise & Hxt & E).
  exists ts, noise, g1, g'. repeat split; try assumption; try apply Hnoise.
  rewrite E. unfold spec_loss.
  destruct (net _ _) as [pred|] eqn:Ep; [|reflexivity].
  cbn [obind]. rewrite loss_mse_spelled_out; [reflexivity|].
  apply (same_shape_trans _ _ _ (well_shaped_same n m _ _ Hnoise Hxt)).
  exact (Hnet _ _ _ Ep).
Qed.

Lemma DDPM_forward_loss_witness :
  exists (self : DDPM) (ts : list nat) (noise : batch) (g1 g' : nat),
    DDPM_init scale_by_time (1/10, 2/10) 3 (1/10) = Some self /\
    counting_randint 1 (3 + 1) 2 0 = (ts, g1) /\ counting_randn 2 2 g1 = (noise, g') /\
    length ts = 2%nat /\ Forall (fun t => (1 <= t <= 3)%nat) ts /\
    well_shaped 2 2 noise /\
    DDPM_forward nat counting_randint counting_randn self [[1; 2]; [3; 4]] 0%nat
    = option_map (fun loss => (loss, g'))
                 (spec_loss scale_by_time (1/10) (2/10) 3 ts [[1; 2]; [3; 4]] noise).
Proof.
  destruct (DDPM_init_accepts scale_by_time (1/10) (2/10) 3 (1/10))
    as [self Hself]; [lra | lra |].
  exists self.
  destruct (DDPM_forward_loss nat counting_randint counting_randn scale_by_time
              (1/10) (2/10) 3 (1/10) self 2 2 [[1; 2]; [3; 4]] 0%nat)
    as (ts & noise & g1 & g' & H).
  - exact counting_randint_range.
  - exact counting_randn_shape.
  - exact scale_by_time_same_shape.
  - lia.
  - exact Hself.
  - lia.
  - lia.
  - split; [reflexivity | repeat constructor].
  - exists ts, noise, g1, g'. exact (conj Hself H).
Defined.

(** ** The drop probability, on a wrapper with steps *)

Lemma drop_prob_noninterference_witness :
  exists (s1 s2 : DDPM) (loss : R) (g1 : nat) (x : batch) (store : list batch) (g2 : nat),
    DDPM_init scale_by_time (1/10, 2/10) 3 (1/10) = Some s1 /\
    DDPM_init scale_by_time (1/10, 2/10) 3 (9/10) = Some s2 /\
    (drop_prob s1 = 1/10 /\ drop_prob s2 = 9/10) /\
    DDPM_forward nat counting_randint counting_randn s1 [[1; 2]; [3; 4]] 0%nat
    = Some (loss, g1) /\
    DDPM_sample nat counting_randn s1 2 (1, 2, 2)%nat 0%nat = Some ((x, store), g2) /\
    (DDPM_forward nat counting_randint counting_randn s1 [[1; 2]; [3; 4]] 0%nat
     = DDPM_forward nat counting_randint counting_randn s2 [[1; 2]; [3; 4]] 0%nat /\
     DDPM_sample nat counting_randn s1 2 (1, 2, 2)%nat 0%nat
     = DDPM_sample nat counting_randn s2 2 (1, 2, 2)%nat 0%nat).
Proof.
  destruct (DDPM_init_accepts scale_by_time (1/10) (2/10) 3 (1/10))
    as [s1 H1]; [lra | lra |].
  destruct (DDPM_init_accepts scale_by_time (1/10) (2/10) 3 (9/10))
    as [s2 H2]; [lra | lra |].
  destruct (DDPM_init_stores_drop_prob _ _ _ _ _ H1) as (Hp1 & HT1 & Hn1 & Hb1).
  destruct (DDPM_init_stores_drop_prob _ _ _ _ _ H2) as (Hp2 & HT2 & Hn2 & Hb2).
  assert (Hx : well_shaped 2 2 [[1; 2]; [3; 4]])
    by (split; [reflexivity | repeat constructor]).
  destruct (DDPM_forward_returns nat counting_randint counting_randn scale_by_time
              (1/10) (2/10) 3 (1/10) s1 2 2 [[1; 2]; [3; 4]] 0%nat
              counting_randint_range counting_randn_shape (Nat.lt_0_succ 2) H1
              (Nat.lt_0_succ 1) (Nat.lt_0_succ 1) Hx (scale_by_time_total 2 2))
    as (loss & g1 & Ef).
  destruct (DDPM_sample_returns nat counting_randn scale_by_time (1/10) (2/10) 3 (1/10)
              s1 2 (1, 2, 2)%nat 0%nat counting_randn_shape H1 scale_by_time_rowwise
              (scale_by_time_total 2 (size_numel (1, 2, 2)%nat)))
    as (x & store & g2 & Es).
  exists s1, s2, loss, g1, x, store, g2.
  refine (conj H1 (conj H2 (conj (conj Hp1 Hp2) (conj Ef (conj Es _))))).
  apply (drop_prob_noninterference nat counting_randint counting_randn s1 s2
           [[1; 2]; [3; 4]] 2 (1, 2, 2)%nat 0%nat); congruence.
Defined.

(** ** More on the schedule *)

(** X2: Every sequence [ddpm_schedules] returns has T + 1 entries. *)
Theorem ddpm_schedules_lengths (beta1 beta2 : R) (T : nat) (s : schedules) :
  ddpm_schedules beta1 beta2 T = Some s ->
  length (alpha_t s) = S T /\ length (oneover_sqrta s) = S T /\
  length (sqrt_beta_t s) = S T /\ length (alphabar_t s) = S T /\
  length (sqrtab s) = S T /\ length (sqrtmab s) = S T /\
  length (mab_over_sqrtmab s) = S T.
Proof.
  intros Hs. repeat split.
  - exact (alpha_t_length _ _ _ s Hs).
  - exact (oneover_sqrta_length _ _ _ s Hs).
  - exact (sqrt_beta_t_length _ _ _ s Hs).
  - exact (alphabar_t_length _ _ _ s Hs).
  - exact (sqrtab_length _ _ _ s Hs).
  - exact (sqrtmab_length _ _ _ s Hs).
  - exact (mab_over_sqrtmab_length _ _ _ s Hs).
Qed.

Lemma ddpm_schedules_lengths_witness :
  exists s, ddpm_schedules (1/10) (2/10) 3 = Some s /\
    length (alpha_t s) = 4%nat /\ length (oneover_sqrta s) = 4%nat /\
    length (sqrt_beta_t s) = 4%nat /\ length (alphabar_t s) = 4%nat /\
    length (sqrtab s) = 4%nat /\ length (sqrtmab s) = 4%nat /\
    length (mab_over_sqrtmab s) = 4%nat.
Proof.
  destruct (ddpm_schedules_accepts (1/10) (2/10) 3) as [s Hs]; [lra | lra |].
  exists s. split; [exact Hs|].
  exact (ddpm_schedules_lengths (1/10) (2/10) 3 s Hs).
Defined.

(** X3: The exponential of the running sum of logarithms is the running
    product: alphabar_t starts at alpha_t[0] and each entry is the one
    before times the next alpha_t, whenever the assertion passes and
    T >= 1. *)
Theorem alphabar_t_cumulative_product (beta1 beta2 : R) (T : nat) (s : schedules) :
  ddpm_schedules beta1 beta2 T = Some s -> (0 < T)%nat ->
  nth 0 (alphabar_t s) 0 = nth 0 (alpha_t s) 0 /\
  forall t, (t < T)%nat ->
    nth (S t) (alphabar_t s) 0 = nth t (alphabar_t s) 0 * nth (S t) (alpha_t s) 0.
Proof.
  intros Hs HT.
  destruct (ddpm_schedules_fields _ _ _ s Hs) as (Hb12 & Hb2 & _).
  split.
  - rewrite (alphabar_t_nth _ _ _ s Hs), (alpha_t_nth _ _ _ s Hs) by lia.
    now rewrite exp_log_alpha_sum by (assumption || lia).
  - intros t Ht.
    rewrite !(alphabar_t_nth _ _ _ s Hs), (alpha_t_nth _ _ _ s Hs) by lia.
    rewrite !exp_log_alpha_sum by (assumption || lia). reflexivity.
Qed.

Lemma alphabar_t_cumulative_product_witness :
  exists s, ddpm_schedules (1/10) (2/10) 3 = Some s /\
    nth 0 (alphabar_t s) 0 = nth 0 (alpha_t s) 0 /\
    forall t, (t < 3)%nat ->
      nth (S t) (alphabar_t s) 0 = nth t (alphabar_t s) 0 * nth (S t) (alpha_t s) 0.
Proof.
  destruct (ddpm_schedules_accepts (1/10) (2/10) 3) as [s Hs]; [lra | lra |].
  exists s. split; [exact Hs|].
  apply (alphabar_t_cumulative_product (1/10) (2/10) 3 s Hs). lia.
Defined.

(** X4: [ddpm_schedules] accepts beta1 = 0 with 0 < beta2 < 1, and then, for
    T >= 1, entry 0 of its buffers is degenerate: alpha_t[0] = 1,
    alphabar_t[0] = 1 and sqrtmab[0] = 0, so that mab_over_sqrtmab[0],
    the quotient (1 - alpha_t[0]) / sqrtmab[0], divides zero by zero. *)
Theorem ddpm_schedules_beta1_zero (beta2 : R) (T : nat) :
  0 < beta2 -> beta2 < 1 -> (0 < T)%nat ->
  exists s, ddpm_schedules 0 beta2 T = Some s /\
    nth 0 (alpha_t s) 0 = 1 /\
    nth 0 (alphabar_t s) 0 = 1 /\
    nth 0 (sqrtmab s) 0 = 0 /\
    nth 0 (mab_over_sqrtmab s) 0 = (1 - nth 0 (alpha_t s) 0) / nth 0 (sqrtmab s) 0.
Proof.
  intros H0 H1 HT.
  destruct (ddpm_schedules_accepts 0 beta2 T H0 H1) as [s Hs].
  exists s. split; [exact Hs|].
  assert (Ha : alpha_at 0 beta2 T 0 = 1).
  { unfold alpha_at, beta_at. change (INR 0) with 0. field.
    apply not_0_INR. lia. }
  rewrite (alpha_t_nth _ _ _ s Hs), (alphabar_t_nth _ _ _ s Hs),
    (sqrtmab_nth _ _ _ s Hs), (mab_over_sqrtmab_nth _ _ _ s Hs) by lia.
  rewrite (exp_log_alpha_sum 0 beta2 T H0 H1 HT 0%nat) by lia.
  cbn [alpha_prod]. rewrite Ha.
  replace (1 - 1) with 0 by ring. rewrite sqrt_0.
  repeat split; reflexivity.
Qed.

Lemma ddpm_schedules_beta1_zero_witness :
  exists s, ddpm_schedules 0 (2/100) 400 = Some s /\
    nth 0 (alpha_t s) 0 = 1 /\
    nth 0 (alphabar_t s) 0 = 1 /\
    nth 0 (sqrtmab s) 0 = 0 /\
    nth 0 (mab_over_sqrtmab s) 0 = (1 - nth 0 (alpha_t s) 0) / nth 0 (sqrtmab s) 0.
Proof.
  apply (ddpm_schedules_beta1_zero (2/100) 400); [lra | lra | lia].
Defined.

(** X5: In the real-number reading of the float32 tensors, alpha_t runs
    from 1 - beta1 at index 0 down to 1 - beta2 at index T and never
    increases on the way, whenever the assertion passes and T >= 1. *)
Theorem alpha_t_endpoints (beta1 beta2 : R) (T : nat) (s : schedules) :
  ddpm_schedules beta1 beta2 T = Some s -> (0 < T)%nat ->
  nth 0 (alpha_t s) 0 = 1 - beta1 /\
  nth T (alpha_t s) 0 = 1 - beta2 /\
  forall t, (t < T)%nat -> nth (S t) (alpha_t s) 0 <= nth t (alpha_t s) 0.
Proof.
  intros Hs HT.
  destruct (ddpm_schedules_fields _ _ _ s Hs) as (Hb12 & Hb2 & _).
  assert (HT' : 0 < INR T) by (apply lt_0_INR; exact HT).
  repeat split.
  - rewrite (alpha_t_nth _ _ _ s Hs) by lia. unfold alpha_at, beta_at.
    change (INR 0) with 0. field. lra.
  - rewrite (alpha_t_nth _ _ _ s Hs) by lia. unfold alpha_at, beta_at. field. lra.
  - intros t Ht. rewrite !(alpha_t_nth _ _ _ s Hs) by lia. unfold alpha_at.
    pose proof (beta_at_increasing beta1 beta2 T Hb12 HT t). lra.
Qed.

Lemma alpha_t_endpoints_witness :
  exists s, ddpm_schedules (1/10) (2/10) 3 = Some s /\
    nth 0 (alpha_t s) 0 = 1 - 1/10 /\
    nth 3 (alpha_t s) 0 = 1 - 2/10 /\
    forall t, (t < 3)%nat -> nth (S t) (alpha_t s) 0 <= nth t (alpha_t s) 0.
Proof.
  destruct (ddpm_schedules_accepts (1/10) (2/10) 3) as [s Hs]; [lra | lra |].
  exists s. split; [exact Hs|].
  apply (alpha_t_endpoints (1/10) (2/10) 3 s Hs). lia.
Defined.

(** ** The mean squared error *)

Lemma sum_squares_nonneg (l : list R) :
  0 <= fold_right Rplus 0 (map (fun v => v * v) l).
Proof.
  induction l as [|v l IH]; simpl; [lra|]. pose proof (Rle_0_sqr v) as H.
  unfold Rsqr in H. lra.
Qed.


Lemma tsum_squares (d : batch) :
  tsum (map (map (fun v => v * v)) d)
  = fold_right Rplus 0 (map (fun v => v * v) (concat d)).
Proof. unfold tsum. now rewrite concat_map. Qed.

Lemma numel_well_shaped (n m : nat) (d : batch) :
  well_shaped n m d -> numel d = (n * m)%nat.
Proof.
  intros [L F]. subst n. unfold numel.
  induction F as [|r d Hr _ IH]; [reflexivity|].
  simpl. rewrite length_app, IH, Hr. reflexivity.
Qed.





(** X7: Whatever the network predicts, a loss that [DDPM.forward] returns for
    a batch of n >= 1 images of m >= 1 entries is not negative. *)
Theorem DDPM_forward_loss_nonnegative
        (rng : Type) (randint : nat -> nat -> nat -> rng -> list nat * rng)
        (randn : nat -> nat -> rng -> batch * rng)
        (self : DDPM) (n m : nat) (x : batch) (g g' : rng) (loss : R) :
  (forall n k g, well_shaped n k (fst (randn n k g))) ->
  (1 <= n)%nat -> (1 <= m)%nat -> well_shaped n m x ->
  DDPM_forward rng randint randn self x g = Some (loss, g') ->
  0 <= loss.
Proof.
  intros Hrandn Hn Hm Hx.
  assert (Hhd : length (hd [] x) = m).
  { destruct Hx as [Lx Fx]. destruct x as [|r x]; [simpl in Lx; lia|].
    now inversion Fx. }
  unfold DDPM_forward, torch_randint, torch_randn_like, torch_randn, bind, lift.
  destruct (1 <? n_T self + 1)%nat; [|discriminate].
  destruct (randint 1%nat (n_T self + 1)%nat (length x) g) as [ts g1].
  rewrite (proj1 Hx), Hhd. pose proof (Hrandn n m g1) as Hnoise.
  destruct (randn n m g1) as [noise g2]. cbn [fst] in Hnoise.
  destruct (gather _ ts) as [a|]; [|discriminate].
  destruct (gather _ ts) as [b|]; [|discriminate].
  destruct (row_scale a x) as [ax|]; [|discriminate].
  destruct (row_scale b noise) as [bn|]; [|discriminate].
  destruct (tadd ax bn) as [x_t|]; [|discriminate].
  destruct (nn_model self x_t _) as [pred|]; [|discriminate].
  unfold loss_mse, tsub.
  destruct (tzip Rminus noise pred) as [d|] eqn:Ed; [|discriminate].
  cbn [obind]. intros E. injection E as <- _.
  assert (Hd : well_shaped n m d).
  { apply (well_shaped_transport n m noise _ Hnoise).
    exact (proj1 (tzip_shape _ _ _ _ Ed)). }
  rewrite (numel_well_shaped n m d Hd), tsum_squares.
  apply Rmult_le_pos; [apply sum_squares_nonneg|].
  left. apply Rinv_0_lt_compat, lt_0_INR. nia.
Qed.

Lemma DDPM_forward_loss_nonnegative_witness :
  exists loss g',
    DDPM_forward unit (fun low _ k g => (repeat low k, g))
                 (fun n k g => (repeat (repeat 0 k) n, g))
                 (mk_DDPM (fun x _ => Some x) (mk_schedules [] [] [] [] [1; 1] [1; 1] []) 1 0)
                 [[3]] tt
    = Some (loss, g') /\ 0 <= loss.
Proof.
  eexists _, _. split; [reflexivity|].
  eapply (DDPM_forward_loss_nonnegative unit (fun low _ k g => (repeat low k, g))
            (fun n k g => (repeat (repeat 0 k) n, g))
            (mk_DDPM (fun x _ => Some x) (mk_schedules [] [] [] [] [1; 1] [1; 1] []) 1 0)
            1 1 [[3]] tt tt).
  - intros n k g. apply well_shaped_repeat.
  - lia.
  - lia.
  - split; [reflexivity | repeat constructor].
  - reflexivity.
Defined.

(** ** A wrapper with no step *)

(** X8: [ddpm_schedules] does not look at T, so a wrapper with n_T = 0 can be
    built from any endpoints the assertion accepts; its [forward] raises
    on every batch (the range of timesteps is empty), and its [sample]
    returns the initial noise unchanged, with no snapshot. *)
Theorem DDPM_without_steps
        (rng : Type) (randint : nat -> nat -> nat -> rng -> list nat * rng)
        (randn : nat -> nat -> rng -> batch * rng)
        (net : batch -> list R -> option batch) (beta1 beta2 p : R) :
  beta1 < beta2 -> beta2 < 1 ->
  exists self,
    DDPM_init net (beta1, beta2) 0 p = Some self /\
    (forall x g, DDPM_forward rng randint randn self x g = None) /\
    (forall n_sample size g,
        DDPM_sample rng randn self n_sample size g
        = Some ((fst (randn n_sample (size_numel size) g), []),
                snd (randn n_sample (size_numel size) g))).
Proof.
  intros H12 H2.
  destruct (DDPM_init_accepts net beta1 beta2 0 p H12 H2) as [self Hself].
  destruct (DDPM_init_stores_drop_prob _ _ _ _ _ Hself) as (_ & HnT & _).
  exists self. split; [exact Hself|]. split.
  - intros x g. unfold DDPM_forward, bind, torch_randint. now rewrite HnT.
  - intros n_sample size g. unfold DDPM_sample, bind, torch_randn. rewrite HnT.
    destruct (randn n_sample (size_numel size) g) as [x0 g0]. reflexivity.
Qed.

Lemma DDPM_without_steps_witness :
  exists self,
    DDPM_init (fun x _ => Some x) (1/10, 2/10) 0 0 = Some self /\
    (forall x g, DDPM_forward unit (fun low _ k g => (repeat low k, g))
                   (fun n k g => (repeat (repeat 0 k) n, g)) self x g = None) /\
    (forall n_sample size g,
        DDPM_sample unit (fun n k g => (repeat (repeat 0 k) n, g)) self n_sample size g
        = Some ((fst (repeat (repeat 0 (size_numel size)) n_sample, g), []),
                snd (repeat (repeat 0 (size_numel size)) n_sample, g))).
Proof.
  apply (DDPM_without_steps unit (fun low _ k g => (repeat low k, g))
           (fun n k g => (repeat (repeat 0 k) n, g)) (fun x _ => Some x)
           (1/10) (2/10) 0); lra.
Defined.

(** ** The training driver *)

(** X9: For a positive base rate, the learning rate of every epoch
    0 <= ep < n_epoch is positive and at most lrate; it starts at lrate,
    falls strictly from one epoch to the next, and in the last epoch is
    lrate / n_epoch: it never reaches zero. *)
Theorem learning_rate_decay (lrate : R) (n_epoch ep : nat) :
  0 < lrate -> (ep < n_epoch)%nat ->
  0 < learning_rate lrate n_epoch ep <= lrate /\
  learning_rate lrate n_epoch 0 = lrate /\
  learning_rate lrate n_epoch (S ep) < learning_rate lrate n_epoch ep /\
  learning_rate lrate n_epoch (n_epoch - 1) = lrate / INR n_epoch.
Proof.
  intros Hl Hep. unfold learning_rate.
  assert (HN : 0 < INR n_epoch) by (apply lt_0_INR; lia).
  assert (He : 0 <= INR ep < INR n_epoch)
    by (split; [apply pos_INR | now apply lt_INR]).
  assert (Hq : 0 <= INR ep / INR n_epoch < 1).
  { split.
    - apply Rmult_le_pos; [lra | left; now apply Rinv_0_lt_compat].
    - apply (Rmult_lt_reg_r (INR n_epoch)); [lra|]. field_simplify; lra. }
  assert (Hi : 0 < / INR n_epoch) by now apply Rinv_0_lt_compat.
  repeat split.
  - nra.
  - nra.
  - change (INR 0) with 0. field. lra.
  - rewrite S_INR. unfold Rdiv. nra.
  - rewrite minus_INR by lia. change (INR 1) with 1. field. lra.
Qed.

Lemma learning_rate_decay_witness :
  0 < learning_rate (1/10000) 40 39 <= 1/10000 /\
  learning_rate (1/10000) 40 0 = 1/10000 /\
  learning_rate (1/10000) 40 (S 39) < learning_rate (1/10000) 40 39 /\
  learning_rate (1/10000) 40 (40 - 1) = 1/10000 / INR 40.
Proof.
  apply (learning_rate_decay (1/10000) 40 39); [lra | lia].
Defined.

Lemma fold_update_loss_ema (losses : list R) (e : R) :
  fold_left update_loss_ema losses (Some e)
  = Some ((95 / 100) ^ length losses * e + later_losses_weighted losses).
Proof.
  revert e. induction losses as [|l losses IH]; intros e.
  - simpl. f_equal. ring.
  - cbn [fold_left update_loss_ema]. rewrite IH. f_equal. simpl. ring.
Qed.

(** X10: In the real-number reading of its doubles, the running loss on the
    progress bar is [None] before the first batch, and after the losses
    l0, l1, ..., lk of an epoch it is their weighted sum with weight
    0.95^k for l0 and 0.05 * 0.95^(k - j) for a later lj: each update
    keeps 0.95 of the old value and adds 0.05 of the new loss. *)
Theorem epoch_loss_ema_weights (losses : list R) :
  epoch_loss_ema losses = weighted_losses losses /\
  forall e l, update_loss_ema (Some e) l = Some (95 / 100 * e + 5 / 100 * l).
Proof.
  split; [|reflexivity].
  destruct losses as [|l0 rest]; [reflexivity|].
  unfold epoch_loss_ema. cbn [fold_left update_loss_ema weighted_losses].
  apply fold_update_loss_ema.
Qed.

(** ** How many snapshots [DDPM.sample] keeps *)

Lemma count_every_20th_and_tail (t : nat) :
  length (filter (fun i => (i mod 20 =? 0)%nat || (i <? 8)%nat) (timesteps t))
  = (t / 20 + Nat.min 7 t)%nat.
Proof.
  induction t as [|t IH]; [reflexivity|].
  rewrite timesteps_S. cbn [filter].
  pose proof (Nat.div_mod_eq t 20) as E1.
  pose proof (Nat.div_mod_eq (S t) 20) as E2.
  pose proof (Nat.mod_upper_bound t 20 ltac:(lia)) as B1.
  pose proof (Nat.mod_upper_bound (S t) 20 ltac:(lia)) as B2.
  destruct (S t mod 20 =? 0)%nat eqn:Em; [apply Nat.eqb_eq in Em | apply Nat.eqb_neq in Em];
    destruct (S t <? 8)%nat eqn:El; [apply Nat.ltb_lt in El | apply Nat.ltb_ge in El
                                     | apply Nat.ltb_lt in El | apply Nat.ltb_ge in El];
    cbn [orb length]; rewrite ?IH; lia.
Qed.

(** The number of timesteps of the loop at which a snapshot is kept. *)
Lemma count_kept_timesteps (T : nat) :
  length (filter (keeps_snapshot T) (timesteps T))
  = match T with
    | O => 0%nat
    | S t => (t / 20 + Nat.min 7 t + 1)%nat
    end.
Proof.
  destruct T as [|t]; [reflexivity|].
  rewrite timesteps_S. cbn [filter]. unfold keeps_snapshot at 1.
  rewrite Nat.eqb_refl, orb_true_r, orb_true_l. cbn [length].
  rewrite (filter_ext_in (keeps_snapshot (S t))
             (fun i => (i mod 20 =? 0)%nat || (i <? 8)%nat)).
  - rewrite count_every_20th_and_tail. lia.
  - intros i Hi. apply timesteps_In in Hi. unfold keeps_snapshot.
    replace (i =? S t)%nat with false by (symmetry; apply Nat.eqb_neq; lia).
    now rewrite orb_false_r.
Qed.

Section SnapshotsReturned.
Variable rng : Type.
Variable randn : nat -> nat -> rng -> batch * rng.
Variable self : DDPM.
Variables (n_sample : nat) (size : nat * nat * nat).
Variables (g g' : rng) (x : batch) (store : list batch).
Hypothesis Hrun : DDPM_sample rng randn self n_sample size g = Some ((x, store), g').

(** What a run that returns has gone through. *)
Lemma DDPM_sample_states :
  exists x0 g0 states,
    randn n_sample (size_numel size) g = (x0, g0) /\
    sample_states rng randn self n_sample (size_numel size)
                  (timesteps (n_T self)) x0 g0 = Some (states, g') /\
    map fst states = timesteps (n_T self) /\
    x = last (map snd states) x0 /\
    store = snapshots_of (keeps_snapshot (n_T self)) states.
Proof.
  revert Hrun. unfold DDPM_sample, bind at 1, torch_randn.
  destruct (randn n_sample (size_numel size) g) as [x0 g0].
  rewrite sample_loop_states. unfold bind, ret.
  destruct (sample_states _ _ _ _ _ _ x0 g0) as [[states g1]|] eqn:E; [|discriminate].
  intros E'. injection E' as <- <- <-.
  exists x0, g0, states. repeat split; try reflexivity; try exact E.
  exact (sample_states_steps _ _ _ _ _ _ _ _ _ _ E).
Qed.

Lemma DDPM_sample_store_length :
  length store = match n_T self with
                 | O => 0%nat
                 | S t => (t / 20 + Nat.min 7 t + 1)%nat
                 end.
Proof.
  destruct DDPM_sample_states as (x0 & g0 & states & _ & _ & Hsteps & _ & ->).
  rewrite snapshots_of_length, Hsteps. apply count_kept_timesteps.
Qed.

End SnapshotsReturned.

(** A run of [DDPM.sample] on zero noise and a network that returns its
    input, for the examples below. *)
Lemma DDPM_sample_example_run (T n_sample : nat) (size : nat * nat * nat) :
  exists self x store,
    DDPM_init (fun x _ => Some x) (1/10, 2/10) T 0 = Some self /\
    n_T self = T /\
    DDPM_sample unit (fun n k g => (repeat (repeat 0 k) n, g)) self n_sample size tt
    = Some ((x, store), tt).
Proof.
  destruct (DDPM_init_accepts (fun x _ => Some x) (1/10) (2/10) T 0)
    as [self Hself]; [lra | lra |].
  destruct (DDPM_init_stores_drop_prob _ _ _ _ _ Hself) as (_ & HnT & _).
  destruct (sample_states_total unit (fun n k g => (repeat (repeat 0 k) n, g))
              (fun x _ => Some x) (1/10) (2/10) T 0
              self n_sample (size_numel size) Hself
              (fun n k g => well_shaped_repeat n k 0)
              (fun x t _ => eq_trans (f_equal Some (firstn_double x)) eq_refl)
              (fun x t Hx _ => ex_intro _ x (conj eq_refl Hx))
              (timesteps T) (repeat (repeat 0 (size_numel size)) n_sample) tt)
    as (states & g' & E).
  { apply Forall_forall. intros i Hi. now apply timesteps_In. }
  { apply well_shaped_repeat. }
  destruct g'.
  exists self, (last (map snd states) (repeat (repeat 0 (size_numel size)) n_sample)),
    (snapshots_of (keeps_snapshot T) states).
  split; [exact Hself|]. split; [exact HnT|].
  unfold DDPM_sample, bind at 1, torch_randn. rewrite HnT.
  rewrite sample_loop_states. unfold bind, ret. rewrite E, HnT. reflexivity.
Qed.

(** X11: A run of [DDPM.sample] that returns has kept no snapshot for
    n_T = 0 and otherwise (n_T - 1) / 20 + min(7, n_T - 1) + 1 of them
    (integer division): 37 for the 600 steps of the script. *)
Theorem DDPM_sample_snapshot_count
        (rng : Type) (randn : nat -> nat -> rng -> batch * rng)
        (self : DDPM) (n_sample : nat) (size : nat * nat * nat)
        (g g' : rng) (x : batch) (store : list batch) :
  DDPM_sample rng randn self n_sample size g = Some ((x, store), g') ->
  length store = match n_T self with
                 | O => 0%nat
                 | S t => (t / 20 + Nat.min 7 t + 1)%nat
                 end.
Proof. intros Hrun. exact (DDPM_sample_store_length _ _ _ _ _ _ _ _ _ Hrun). Qed.

Lemma DDPM_sample_snapshot_count_witness :
  exists self x store,
    n_T self = 600%nat /\
    DDPM_sample unit (fun n k g => (repeat (repeat 0 k) n, g)) self 2 (1, 2, 2)%nat tt
    = Some ((x, store), tt) /\
    length store = match n_T self with
                   | O => 0%nat
                   | S t => (t / 20 + Nat.min 7 t + 1)%nat
                   end.
Proof.
  destruct (DDPM_sample_example_run 600 2 (1, 2, 2)%nat)
    as (self & x & store & _ & HnT & Hrun).
  exists self, x, store. split; [exact HnT|]. split; [exact Hrun|].
  exact (DDPM_sample_snapshot_count _ _ _ _ _ _ _ _ _ Hrun).
Defined.

Lemma timesteps_ends_with_1 (t : nat) : timesteps (S t) = rev (seq 2 t) ++ [1%nat].
Proof. reflexivity. Qed.

(** X12: With at least one step, the last snapshot a run of [DDPM.sample]
    returns is the final batch it returns. *)
Theorem DDPM_sample_last_snapshot
        (rng : Type) (randn : nat -> nat -> rng -> batch * rng)
        (self : DDPM) (n_sample : nat) (size : nat * nat * nat)
        (g g' : rng) (x : batch) (store : list batch) :
  DDPM_sample rng randn self n_sample size g = Some ((x, store), g') ->
  (1 <= n_T self)%nat ->
  exists earlier, store = earlier ++ [x].
Proof.
  intros Hrun HT.
  destruct (DDPM_sample_states _ _ _ _ _ _ _ _ _ Hrun)
    as (x0 & g0 & states & _ & _ & Hsteps & -> & ->).
  destruct (n_T self) as [|t] eqn:ET; [lia|].
  rewrite timesteps_ends_with_1 in Hsteps.
  apply map_eq_app in Hsteps. destruct Hsteps as (s1 & s2 & -> & _ & H2).
  destruct s2 as [|[i xl] [|? ?]]; try discriminate.
  cbn in H2. injection H2 as ->.
  exists (snapshots_of (keeps_snapshot (S t)) s1).
  unfold snapshots_of. rewrite filter_app, !map_app. cbn [filter fst map snd].
  replace (keeps_snapshot (S t) 1) with true
    by (unfold keeps_snapshot; now rewrite orb_true_r).
  cbn [map snd]. now rewrite last_last.
Qed.

Lemma DDPM_sample_last_snapshot_witness :
  exists self x store earlier,
    DDPM_sample unit (fun n k g => (repeat (repeat 0 k) n, g)) self 2 (1, 2, 2)%nat tt
    = Some ((x, store), tt) /\
    (1 <= n_T self)%nat /\ store = earlier ++ [x].
Proof.
  destruct (DDPM_sample_example_run 30 2 (1, 2, 2)%nat)
    as (self & x & store & _ & HnT & Hrun).
  assert (HT : (1 <= n_T self)%nat) by (rewrite HnT; lia).
  destruct (DDPM_sample_last_snapshot _ _ _ _ _ _ _ _ _ Hrun HT) as [earlier E].
  exists self, x, store, earlier. repeat split; assumption.
Defined.

(** ** The reads of the trajectory figure *)

Lemma omap_total {A B : Type} (f : A -> option B) (l : list A) :
  Forall (fun a => exists b, f a = Some b) l -> exists bs, omap f l = Some bs.
Proof.
  induction 1 as [|a l [b Hb] _ [bs IH]]; [now exists []|].
  cbn [omap]. rewrite Hb, IH. cbn [obind]. now eexists.
Qed.

Lemma omap_inv {A B : Type} (f : A -> option B) (l : list A) (bs : list B) :
  omap f l = Some bs -> forall a, In a l -> exists b, f a = Some b.
Proof.
  revert bs. induction l as [|a l IH]; intros bs E a' Hin; [destruct Hin|].
  cbn [omap] in E. destruct (f a) as [b|] eqn:Ea; [|discriminate].
  cbn [obind] in E. destruct (omap f l) as [r|] eqn:Er; [|discriminate].
  destruct Hin as [<- | Hin]; [now exists b | exact (IH r eq_refl a' Hin)].
Qed.

Lemma store_at_in_range (x_gen_store : list batch) (k : nat) :
  Forall (fun s => s <> []) x_gen_store ->
  ((exists img, store_at x_gen_store k = Some img) <-> (k < length x_gen_store)%nat).
Proof.
  intros Hne. unfold store_at. split.
  - intros [img E]. destruct (nth_error x_gen_store k) as [s|] eqn:Es; [|discriminate].
    apply nth_error_Some. congruence.
  - intros Hk. destruct (nth_error x_gen_store k) as [s|] eqn:Es.
    + cbn [obind]. rewrite Forall_forall in Hne.
      pose proof (Hne s (nth_error_In _ _ Es)) as Hs.
      destruct s as [|img s]; [contradiction|]. now exists img.
    + apply nth_error_None in Es. lia.
Qed.

Lemma trajectory_reads_in_range (x_gen_store : list batch) :
  Forall (fun s => s <> []) x_gen_store ->
  ((exists imgs, trajectory_reads x_gen_store = Some imgs)
   <-> (29 <= length x_gen_store)%nat).
Proof.
  intros Hne. unfold trajectory_reads. split.
  - intros [imgs E].
    destruct (omap_inv _ _ _ E 6%nat) as [img H6]; [apply in_seq; lia|].
    cbn in H6. change (store_at x_gen_store 28 = Some img) in H6.
    apply (proj1 (store_at_in_range x_gen_store 28 Hne)). now exists img.
  - intros Hlen. apply omap_total. apply Forall_forall. intros j Hj.
    apply in_seq in Hj. destruct (j =? 7)%nat eqn:E7.
    + apply (proj2 (store_at_in_range x_gen_store (length x_gen_store - 1) Hne)). lia.
    + apply Nat.eqb_neq in E7.
      apply (proj2 (store_at_in_range x_gen_store (4 * j + 4) Hne)). lia.
Qed.

Section SampleRows.
Variable rng : Type.
Variable randn : nat -> nat -> rng -> batch * rng.
Variable self : DDPM.
Variables (n_sample m : nat).

(** A step that returns keeps the number of samples. *)
Lemma sample_step_rows (i : nat) (x x' : batch) (g g' : rng) :
  sample_step rng randn self n_sample m i x g = Some (x', g') ->
  length x = n_sample -> length x' = n_sample.
Proof.
  intros E Hlen. revert E. unfold sample_step, bind, ret, lift, torch_randn.
  assert (Hf : length (firstn n_sample (x ++ x)) = n_sample)
    by (rewrite length_firstn, length_app; lia).
  destruct (1 <? i)%nat.
  - destruct (randn n_sample m g) as [z g1].
    destruct (nn_model self _ _) as [out|]; [|discriminate].
    destruct (nth_error (oneover_sqrta _) i) as [oo|]; [|discriminate].
    destruct (nth_error (mab_over_sqrtmab _) i) as [mm|]; [|discriminate].
    destruct (nth_error (sqrt_beta_t _) i) as [sb|]; [|discriminate].
    destruct (tsub _ _) as [d|] eqn:Ed; [|discriminate].
    destruct (tadd _ _) as [r|] eqn:Er; [|discriminate].
    intros E. injection E as <- _.
    destruct (tzip_shape _ _ _ _ Ed) as [Hd _]. destruct (tzip_shape _ _ _ _ Er) as [Hr _].
    apply same_shape_length in Hd, Hr. unfold smul in Hr. rewrite length_map in Hr.
    congruence.
  - destruct (nn_model self _ _) as [out|]; [|discriminate].
    destruct (nth_error (oneover_sqrta _) i) as [oo|]; [|discriminate].
    destruct (nth_error (mab_over_sqrtmab _) i) as [mm|]; [|discriminate].
    destruct (nth_error (sqrt_beta_t _) i) as [sb|]; [|discriminate].
    destruct (tsub _ _) as [d|] eqn:Ed; [|discriminate].
    intros E. injection E as <- _.
    destruct (tzip_shape _ _ _ _ Ed) as [Hd _]. apply same_shape_length in Hd.
    unfold adds, smul. rewrite !length_map. congruence.
Qed.

Lemma sample_states_rows (steps : list nat) :
  forall (x : batch) (g g' : rng) (states : list (nat * batch)),
    sample_states rng randn self n_sample m steps x g = Some (states, g') ->
    length x = n_sample ->
    Forall (fun s => length (snd s) = n_sample) states.
Proof.
  induction steps as [|i steps IH]; intros x g g' states.
  - cbn. intros E _. injection E as <- _. constructor.
  - cbn [sample_states]. unfold bind, ret.
    destruct (sample_step rng randn self n_sample m i x g) as [[x' g1]|] eqn:Ex;
      [|discriminate].
    destruct (sample_states rng randn self n_sample m steps x' g1) as [[rest g2]|] eqn:E;
      [|discriminate].
    intros E' Hlen. injection E' as <- _.
    pose proof (sample_step_rows _ _ _ _ _ Ex Hlen) as Hx'.
    constructor; [exact Hx' | exact (IH _ _ _ _ E Hx')].
Qed.

End SampleRows.

(** X13: The trajectory figure of [train_mnist] reads [x_gen_store] at the
    indices 4, 8, ..., 28 and -1.  On the store a run of [DDPM.sample]
    with n_sample >= 1 returns, all eight reads are in range exactly when
    n_T >= 421; with fewer steps the figure raises an [IndexError]. *)
Theorem trajectory_reads_need_421_steps
        (rng : Type) (randn : nat -> nat -> rng -> batch * rng)
        (self : DDPM) (n_sample : nat) (size : nat * nat * nat)
        (g g' : rng) (x : batch) (store : list batch) :
  (forall n k g, well_shaped n k (fst (randn n k g))) ->
  (1 <= n_sample)%nat ->
  DDPM_sample rng randn self n_sample size g = Some ((x, store), g') ->
  ((exists imgs, trajectory_reads store = Some imgs) <-> (421 <= n_T self)%nat).
Proof.
  intros Hrandn Hn Hrun.
  pose proof (DDPM_sample_store_length _ _ _ _ _ _ _ _ _ Hrun) as Hlen.
  destruct (DDPM_sample_states _ _ _ _ _ _ _ _ _ Hrun)
    as (x0 & g0 & states & Ex0 & Est & _ & _ & Estore).
  assert (Hne : Forall (fun s => s <> []) store).
  { pose proof (Hrandn n_sample (size_numel size) g) as Hx0.
    rewrite Ex0 in Hx0. cbn [fst] in Hx0.
    pose proof (sample_states_rows _ _ _ _ _ _ _ _ _ _ Est (proj1 Hx0)) as Hrows.
    rewrite Estore. unfold snapshots_of. apply Forall_forall. intros s Hs.
    apply in_map_iff in Hs. destruct Hs as ([i s'] & <- & Hin).
    apply filter_In in Hin. destruct Hin as [Hin _].
    rewrite Forall_forall in Hrows. pose proof (Hrows _ Hin) as Hl. cbn [snd] in *.
    destruct s'; [simpl in Hl; lia | discriminate]. }
  rewrite (trajectory_reads_in_range store Hne), Hlen.
  destruct (n_T self) as [|t]; [lia|].
  pose proof (Nat.div_mod_eq t 20). pose proof (Nat.mod_upper_bound t 20 ltac:(lia)).
  lia.
Qed.

Lemma trajectory_reads_need_421_steps_witness :
  exists self x store,
    n_T self = 421%nat /\
    DDPM_sample unit (fun n k g => (repeat (repeat 0 k) n, g)) self 1 (1, 2, 2)%nat tt
    = Some ((x, store), tt) /\
    ((exists imgs, trajectory_reads store = Some imgs) <-> (421 <= n_T self)%nat).
Proof.
  destruct (DDPM_sample_example_run 421 1 (1, 2, 2)%nat)
    as (self & x & store & _ & HnT & Hrun).
  exists self, x, store. split; [exact HnT|]. split; [exact Hrun|].
  apply (trajectory_reads_need_421_steps unit (fun n k g => (repeat (repeat 0 k) n, g))
           self 1 (1, 2, 2)%nat tt tt x store);
    [intros n k g; apply well_shaped_repeat | lia | exact Hrun].
Defined.

(** ** What the network accepts *)

Lemma shape_eqb_eq (a b : Shape.shape) : Shape.shape_eqb a b = true -> a = b.
Proof.
  revert b. induction a as [|x a IH]; intros [|y b]; simpl; try discriminate.
  - reflexivity.
  - intros H. apply andb_true_iff in H. destruct H as [Hx Hr].
    apply Nat.eqb_eq in Hx. subst. f_equal. now apply IH.
Qed.

Lemma cat1_inv (n c n' c' : nat) (r r' : list nat) (s : Shape.shape) :
  Shape.cat1 (n :: c :: r) (n' :: c' :: r') = Some s ->
  n = n' /\ r = r' /\ s = n :: (c + c')%nat :: r.
Proof.
  cbn [Shape.cat1].
  destruct ((n =? n')%nat && Shape.shape_eqb r r') eqn:E; [|discriminate].
  apply andb_true_iff in E. destruct E as [En Er].
  apply Nat.eqb_eq in En. apply shape_eqb_eq in Er.
  intros E. injection E as <-. repeat split; assumption.
Qed.

Lemma Conv2d_3_1_1_inv (cin cout n c h w : nat) (s : Shape.shape) :
  Shape.Conv2d cin cout 3 1 1 [n; c; h; w] = Some s ->
  c = cin /\ (1 <= h)%nat /\ (1 <= w)%nat.
Proof.
  cbn [Shape.Conv2d].
  destruct (c =? cin)%nat eqn:Ec; [|discriminate].
  destruct (3 <=? h + 2 * 1)%nat eqn:Eh; [|rewrite andb_false_r; discriminate].
  destruct (3 <=? w + 2 * 1)%nat eqn:Ew; [|rewrite andb_false_r; discriminate].
  intros _. apply Nat.eqb_eq in Ec. apply Nat.leb_le in Eh, Ew. lia.
Qed.

Lemma ResidualConvBlock_inv (cin cout : nat) (is_res : bool) (n c h w : nat)
      (s : Shape.shape) :
  Shape.ResidualConvBlock cin cout is_res [n; c; h; w] = Some s ->
  c = cin /\ (1 <= h)%nat /\ (1 <= w)%nat /\ s = [n; cout; h; w].
Proof.
  intros E.
  assert (H : c = cin /\ (1 <= h)%nat /\ (1 <= w)%nat).
  { destruct (Shape.Conv2d cin cout 3 1 1 [n; c; h; w]) as [s0|] eqn:Ec;
      [exact (Conv2d_3_1_1_inv _ _ _ _ _ _ _ Ec)|].
    exfalso. unfold Shape.ResidualConvBlock in E. rewrite Ec in E.
    destruct is_res; discriminate. }
  destruct H as (Hc & Hh & Hw).
  rewrite ResidualConvBlock_shape in E by assumption.
  injection E as <-. repeat split; assumption.
Qed.

Lemma Pool2d_inv (k n c h w : nat) (s : Shape.shape) :
  Shape.Pool2d k [n; c; h; w] = Some s ->
  (k <= h)%nat /\ (k <= w)%nat /\
  s = [n; c; ((h - k) / k + 1)%nat; ((w - k) / k + 1)%nat].
Proof.
  cbn [Shape.Pool2d].
  destruct (0 <? k)%nat; [|discriminate].
  destruct (k <=? h)%nat eqn:Eh; [|discriminate].
  destruct (k <=? w)%nat eqn:Ew; [|discriminate].
  cbn [andb]. intros E. injection E as <-.
  apply Nat.leb_le in Eh, Ew. repeat split; assumption.
Qed.

Lemma UnetDown_inv (cin cout n c h w : nat) (s : Shape.shape) :
  Shape.UnetDown cin cout [n; c; h; w] = Some s ->
  c = cin /\ (2 <= h)%nat /\ (2 <= w)%nat /\
  s = [n; cout; ((h - 2) / 2 + 1)%nat; ((w - 2) / 2 + 1)%nat].
Proof.
  unfold Shape.UnetDown.
  destruct (Shape.ResidualConvBlock cin cout false [n; c; h; w]) as [y|] eqn:E;
    [|discriminate].
  apply ResidualConvBlock_inv in E. destruct E as (Hc & _ & _ & ->).
  cbn [obind]. unfold Shape.MaxPool2d. intros E. apply Pool2d_inv in E.
  destruct E as (Hh & Hw & ->). repeat split; assumption.
Qed.

Lemma ConvTranspose2d_inv (cin cout k st n c h w : nat) (s : Shape.shape) :
  Shape.ConvTranspose2d cin cout k st [n; c; h; w] = Some s ->
  c = cin /\ (0 < h)%nat /\ (0 < w)%nat /\
  s = [n; cout; ((h - 1) * st + k)%nat; ((w - 1) * st + k)%nat].
Proof.
  cbn [Shape.ConvTranspose2d].
  destruct (c =? cin)%nat eqn:Ec; [|discriminate].
  destruct (0 <? st)%nat; [|discriminate].
  destruct (0 <? h)%nat eqn:Eh; [|discriminate].
  destruct (0 <? w)%nat eqn:Ew; [|discriminate].
  cbn [andb]. intros E. injection E as <-.
  apply Nat.eqb_eq in Ec. apply Nat.ltb_lt in Eh, Ew. repeat split; assumption.
Qed.

Lemma UnetUp_inv (cin cout n c h w n' c' h' w' : nat) (s : Shape.shape) :
  Shape.UnetUp cin cout [n; c; h; w] [n'; c'; h'; w'] = Some s ->
  n = n' /\ h = h' /\ w = w' /\ (c + c')%nat = cin /\ (0 < h)%nat /\ (0 < w)%nat /\
  s = [n; cout; ((h - 1) * 2 + 2)%nat; ((w - 1) * 2 + 2)%nat].
Proof.
  unfold Shape.UnetUp.
  destruct (Shape.cat1 [n; c; h; w] [n'; c'; h'; w']) as [y|] eqn:E; [|discriminate].
  apply cat1_inv in E. destruct E as (Hn & Hr & ->). injection Hr as Hh Hw.
  cbn [obind].
  destruct (Shape.ConvTranspose2d cin cout 2 2 _) as [y|] eqn:E; [|discriminate].
  apply ConvTranspose2d_inv in E. destruct E as (Hc & Hh0 & Hw0 & ->).
  cbn [obind]. rewrite ResidualConvBlock_shape by (reflexivity || lia).
  cbn [obind]. rewrite ResidualConvBlock_shape by (reflexivity || lia).
  intros E. injection E as <-. repeat split; assumption.
Qed.

(** A per-sample, per-channel bias of [m] samples added to [n] feature
    maps: the result has [n] samples exactly when [m = n] or [m = 1]. *)
Lemma broadcast_bias_inv (n m c h w : nat) (s : Shape.shape) :
  Shape.broadcast [n; c; h; w] [m; c; 1%nat; 1%nat] = Some s ->
  exists n', s = [n'; c; h; w] /\ (n' = n -> m = n \/ m = 1%nat).
Proof.
  unfold Shape.broadcast. cbn [rev app Shape.broadcast_rev obind].
  rewrite (Nat.eqb_refl c).
  destruct (Nat.eqb_spec n m) as [->|Hnm].
  - cbn [obind].
    destruct (w =? 1)%nat, (h =? 1)%nat; cbn [obind rev app];
      intros E; injection E as <-; exists m; split; auto.
  - destruct (Nat.eqb_spec n 1) as [->|Hn1].
    + cbn [obind].
      destruct (w =? 1)%nat, (h =? 1)%nat; cbn [obind rev app];
        intros E; injection E as <-; exists m; split; auto.
    + destruct (Nat.eqb_spec m 1) as [->|Hm1]; [|discriminate].
      cbn [obind].
      destruct (w =? 1)%nat, (h =? 1)%nat; cbn [obind rev app];
        intros E; injection E as <-; exists n; split; auto.
Qed.

Lemma broadcast_bias_ok (n m c h w : nat) :
  m = n \/ m = 1%nat ->
  Shape.broadcast [n; c; h; w] [m; c; 1%nat; 1%nat] = Some [n; c; h; w].
Proof.
  intros [->| ->]; [apply broadcast_bias|].
  unfold Shape.broadcast. cbn [rev app Shape.broadcast_rev obind].
  rewrite (Nat.eqb_refl c).
  destruct (n =? 1)%nat eqn:En; [apply Nat.eqb_eq in En; subst n|];
    destruct (w =? 1)%nat eqn:Ew, (h =? 1)%nat eqn:Eh; cbn [obind rev app];
    rewrite ?Nat.eqb_refl; cbn [obind rev app];
    try apply Nat.eqb_eq in Ew; try apply Nat.eqb_eq in Eh; subst; reflexivity.
Qed.

Lemma mod_8_double (n : nat) : (n mod 8 = 0)%nat -> ((2 * n) mod 8 = 0)%nat.
Proof.
  intros H. apply Nat.Div0.mod_divides in H. destruct H as [k ->].
  replace (2 * (8 * k))%nat with (8 * (2 * k))%nat by lia.
  rewrite Nat.mul_comm. apply Nat.Div0.mod_mul.
Qed.

Section UnetAccepts.
Variables (C n_feat N : nat).
Hypothesis HN : (1 <= N)%nat.
Hypothesis Hpos : (0 < n_feat)%nat.
Hypothesis H8 : (n_feat mod 8 = 0)%nat.

Lemma Unet_forward_inv (c H W : nat) (t s : Shape.shape) :
  Shape.Unet_forward C n_feat [N; c; H; W] t = Some s ->
  c = C /\ (0 < H)%nat /\ (H mod 28 = 0)%nat /\ (0 < W)%nat /\ (W mod 28 = 0)%nat /\
  (Shape.numel t = N \/ Shape.numel t = 1%nat) /\ s = [N; C; H; W].
Proof.
  unfold Shape.Unet_forward. intros E.
  destruct (Shape.ResidualConvBlock C n_feat true [N; c; H; W]) as [x1|] eqn:E1;
    [|discriminate].
  apply ResidualConvBlock_inv in E1. destruct E1 as (Hc & HH & HW & ->).
  cbn [obind] in E.
  destruct (Shape.UnetDown n_feat n_feat [N; n_feat; H; W]) as [d1|] eqn:E2;
    [|discriminate].
  apply UnetDown_inv in E2. destruct E2 as (_ & HH2 & HW2 & ->).
  cbn [obind] in E.
  set (h1 := ((H - 2) / 2 + 1)%nat) in *. set (w1 := ((W - 2) / 2 + 1)%nat) in *.
  clearbody h1 w1.
  destruct (Shape.UnetDown n_feat (2 * n_feat) _) as [d2|] eqn:E3; [|discriminate].
  apply UnetDown_inv in E3. destruct E3 as (_ & Hh1 & Hw1 & ->).
  cbn [obind] in E. unfold Shape.AvgPool2d in E.
  set (h2 := ((h1 - 2) / 2 + 1)%nat) in *. set (w2 := ((w1 - 2) / 2 + 1)%nat) in *.
  clearbody h2 w2.
  destruct (Shape.Pool2d 7 _) as [hv|] eqn:E4; [|discriminate].
  apply Pool2d_inv in E4. destruct E4 as (Hh2 & Hw2 & ->).
  assert (Hh3 : (1 <= (h2 - 7) / 7 + 1)%nat) by lia.
  assert (Hw3 : (1 <= (w2 - 7) / 7 + 1)%nat) by lia.
  set (h3 := ((h2 - 7) / 7 + 1)%nat) in *. set (w3 := ((w2 - 7) / 7 + 1)%nat) in *.
  clearbody h3 w3.
  cbn [obind Shape.GELU Shape.ReLU] in E.
  rewrite !(EmbedFC_1_shape _ (Shape.numel t)) in E by reflexivity.
  cbn [obind] in E.
  rewrite (view_infer_ok _ [n_feat * 2; 1; 1]%nat (Shape.numel t)) in E by (simpl; lia).
  rewrite (view_infer_ok _ [n_feat; 1; 1]%nat (Shape.numel t)) in E by (simpl; lia).
  cbn [obind] in E.
  rewrite ConvTranspose2d_ok in E by (reflexivity || lia). cbn [obind] in E.
  rewrite GroupNorm_8 in E by (reflexivity || now apply mod_8_double).
  cbn [obind] in E.
  replace (n_feat * 2)%nat with (2 * n_feat)%nat in E by lia.
  unfold Shape.ReLU in E. cbn [obind] in E.
  destruct (Shape.broadcast _ [Shape.numel t; (2 * n_feat)%nat; 1%nat; 1%nat])
    as [a1|] eqn:Eb1; [|discriminate].
  apply broadcast_bias_inv in Eb1. destruct Eb1 as (N1 & -> & Hm1).
  cbn [obind] in E.
  destruct (Shape.UnetUp (4 * n_feat) n_feat _ _) as [up2|] eqn:E5; [|discriminate].
  apply UnetUp_inv in E5. destruct E5 as (HN1 & Hu1 & Hv1 & _ & _ & _ & ->).
  cbn [obind] in E.
  destruct (Shape.broadcast _ [Shape.numel t; n_feat; 1%nat; 1%nat])
    as [a2|] eqn:Eb2; [|discriminate].
  apply broadcast_bias_inv in Eb2. destruct Eb2 as (N2 & -> & _).
  cbn [obind] in E.
  destruct (Shape.UnetUp (2 * n_feat) n_feat _ _) as [up3|] eqn:E6; [|discriminate].
  apply UnetUp_inv in E6. destruct E6 as (HN2 & Hu2 & Hv2 & _ & _ & _ & ->).
  cbn [obind] in E.
  destruct (Shape.cat1 _ [N; n_feat; H; W]) as [cc|] eqn:E7; [|discriminate].
  apply cat1_inv in E7. destruct E7 as (_ & Hr & ->). injection Hr as Hu3 Hv3.
  cbn [obind] in E.
  rewrite Conv2d_3_1_1 in E by lia. cbn [obind] in E.
  rewrite GroupNorm_8 in E by (reflexivity || assumption). cbn [obind] in E.
  rewrite Conv2d_3_1_1 in E by lia.
  injection E as <-.
  assert (EH : H = (28 * h3)%nat) by lia.
  assert (EW : W = (28 * w3)%nat) by lia.
  refine (conj Hc (conj _ (conj _ (conj _ (conj _ (conj _ _)))))).
  - lia.
  - rewrite EH, Nat.mul_comm. apply Nat.Div0.mod_mul.
  - lia.
  - rewrite EW, Nat.mul_comm. apply Nat.Div0.mod_mul.
  - apply Hm1. lia.
  - rewrite HN2, Hu3, Hv3. reflexivity.
Qed.

Lemma Unet_forward_ok (k l : nat) (t : Shape.shape) :
  (1 <= k)%nat -> (1 <= l)%nat ->
  Shape.numel t = N \/ Shape.numel t = 1%nat ->
  Shape.Unet_forward C n_feat [N; C; (28 * k)%nat; (28 * l)%nat] t
  = Some [N; C; (28 * k)%nat; (28 * l)%nat].
Proof.
  intros Hk Hl Ht. unfold Shape.Unet_forward.
  rewrite ResidualConvBlock_shape by (reflexivity || lia). cbn [obind].
  rewrite UnetDown_shape by (reflexivity || lia). cbn [obind].
  replace ((28 * k - 2) / 2 + 1)%nat with (14 * k)%nat
    by (pose proof (Nat.div_mod_eq (28 * k - 2) 2);
        pose proof (Nat.mod_upper_bound (28 * k - 2) 2 ltac:(lia)); lia).
  replace ((28 * l - 2) / 2 + 1)%nat with (14 * l)%nat
    by (pose proof (Nat.div_mod_eq (28 * l - 2) 2);
        pose proof (Nat.mod_upper_bound (28 * l - 2) 2 ltac:(lia)); lia).
  rewrite UnetDown_shape by (reflexivity || lia). cbn [obind].
  replace ((14 * k - 2) / 2 + 1)%nat with (7 * k)%nat
    by (pose proof (Nat.div_mod_eq (14 * k - 2) 2);
        pose proof (Nat.mod_upper_bound (14 * k - 2) 2 ltac:(lia)); lia).
  replace ((14 * l - 2) / 2 + 1)%nat with (7 * l)%nat
    by (pose proof (Nat.div_mod_eq (14 * l - 2) 2);
        pose proof (Nat.mod_upper_bound (14 * l - 2) 2 ltac:(lia)); lia).
  unfold Shape.AvgPool2d, Shape.Pool2d, Shape.GELU, Shape.ReLU.
  replace (7 <=? 7 * k)%nat with true by (symmetry; apply Nat.leb_le; lia).
  replace (7 <=? 7 * l)%nat with true by (symmetry; apply Nat.leb_le; lia).
  cbn [Nat.ltb Nat.leb andb obind].
  replace ((7 * k - 7) / 7 + 1)%nat with k
    by (pose proof (Nat.div_mod_eq (7 * k - 7) 7);
        pose proof (Nat.mod_upper_bound (7 * k - 7) 7 ltac:(lia)); lia).
  replace ((7 * l - 7) / 7 + 1)%nat with l
    by (pose proof (Nat.div_mod_eq (7 * l - 7) 7);
        pose proof (Nat.mod_upper_bound (7 * l - 7) 7 ltac:(lia)); lia).
  rewrite !(EmbedFC_1_shape _ (Shape.numel t)) by reflexivity. cbn [obind].
  rewrite (view_infer_ok _ [n_feat * 2; 1; 1]%nat (Shape.numel t)) by (simpl; lia).
  rewrite (view_infer_ok _ [n_feat; 1; 1]%nat (Shape.numel t)) by (simpl; lia).
  cbn [obind].
  rewrite ConvTranspose2d_ok by (reflexivity || lia). cbn [obind].
  rewrite GroupNorm_8 by (reflexivity || now apply mod_8_double). cbn [obind].
  replace (n_feat * 2)%nat with (2 * n_feat)%nat by lia.
  rewrite broadcast_bias_ok by exact Ht. cbn [obind].
  replace ((k - 1) * 7 + 7)%nat with (7 * k)%nat by lia.
  replace ((l - 1) * 7 + 7)%nat with (7 * l)%nat by lia.
  rewrite (UnetUp_shape (4 * n_feat) n_feat N (2 * n_feat) (2 * n_feat)) by lia.
  cbn [obind].
  rewrite broadcast_bias_ok by exact Ht. cbn [obind].
  replace ((7 * k - 1) * 2 + 2)%nat with (14 * k)%nat by lia.
  replace ((7 * l - 1) * 2 + 2)%nat with (14 * l)%nat by lia.
  rewrite (UnetUp_shape (2 * n_feat) n_feat N n_feat n_feat) by lia.
  cbn [obind].
  replace ((14 * k - 1) * 2 + 2)%nat with (28 * k)%nat by lia.
  replace ((14 * l - 1) * 2 + 2)%nat with (28 * l)%nat by lia.
  rewrite (cat1_same N n_feat n_feat (2 * n_feat)) by lia. cbn [obind].
  rewrite Conv2d_3_1_1 by (reflexivity || lia). cbn [obind].
  rewrite GroupNorm_8 by (reflexivity || assumption). cbn [obind].
  apply Conv2d_3_1_1; (reflexivity || lia).
Qed.

End UnetAccepts.

(** X14: [Unet(C, n_feat)] with a feature width its group norms accept (a
    positive multiple of 8) returns on a batch of N >= 1 images exactly
    when the images have C channels, their height and width are positive
    multiples of 28 (the two poolings by 2, the pooling by 7 and the
    three transposed convolutions must meet the skip connections), and
    the timestep tensor has N entries or one; what it returns then has
    the shape of the images. *)
Theorem Unet_forward_accepts (C n_feat N c H W : nat) (t : Shape.shape) :
  (1 <= N)%nat -> (0 < n_feat)%nat -> (n_feat mod 8 = 0)%nat ->
  (forall s, Shape.Unet_forward C n_feat [N; c; H; W] t = Some s -> s = [N; C; H; W]) /\
  ((exists s, Shape.Unet_forward C n_feat [N; c; H; W] t = Some s) <->
   c = C /\ (0 < H)%nat /\ (H mod 28 = 0)%nat /\ (0 < W)%nat /\ (W mod 28 = 0)%nat /\
   (Shape.numel t = N \/ Shape.numel t = 1%nat)).
Proof.
  intros HN Hpos H8. split; [|split].
  - intros s E. now destruct (Unet_forward_inv C n_feat N HN Hpos H8 c H W t s E)
      as (_ & _ & _ & _ & _ & _ & ->).
  - intros [s E]. destruct (Unet_forward_inv C n_feat N HN Hpos H8 c H W t s E)
      as (? & ? & ? & ? & ? & ? & _). tauto.
  - intros (-> & HH & HHm & HW & HWm & Ht).
    apply Nat.Div0.mod_divides in HHm, HWm.
    destruct HHm as [k ->], HWm as [l ->].
    exists [N; C; (28 * k)%nat; (28 * l)%nat].
    apply Unet_forward_ok; (assumption || lia).
Qed.

Lemma Unet_forward_accepts_witness :
  (forall s, Shape.Unet_forward 1 256 [10; 1; 56; 28]%nat [1%nat] = Some s ->
             s = [10; 1; 56; 28]%nat) /\
  ((exists s, Shape.Unet_forward 1 256 [10; 1; 56; 28]%nat [1%nat] = Some s) <->
   1%nat = 1%nat /\ (0 < 56)%nat /\ (56 mod 28 = 0)%nat /\ (0 < 28)%nat /\
   (28 mod 28 = 0)%nat /\
   (Shape.numel [1%nat] = 10%nat \/ Shape.numel [1%nat] = 1%nat)).
Proof.
  apply (Unet_forward_accepts 1 256 10 1 56 28 [1%nat]); [lia | lia | reflexivity].
Defined.

(** ** Sizes [DDPM.sample] rejects *)

(** X15: With at least one step, [DDPM.sample] raises for a size of four or
    more dimensions, whatever the network: [repeat(2, 1, 1, 1)] names
    fewer dimensions than x_i has. *)
Theorem DDPM_sample_rejects_long_size
        (nn_model : Shape.shape -> Shape.shape -> option Shape.shape)
        (n_T n_sample : nat) (size : Shape.shape) :
  (1 <= n_T)%nat -> (4 <= length size)%nat ->
  Shape.DDPM_sample nn_model n_T n_sample size = None.
Proof.
  intros HT Hsize. unfold Shape.DDPM_sample.
  destruct n_T as [|t]; [lia|]. rewrite timesteps_S. cbn [Shape.sample_loop].
  unfold Shape.sample_step, Shape.trepeat at 1 2.
  cbn [length Nat.ltb Nat.leb obind].
  destruct size as [|a [|b [|c [|d size]]]]; simpl in Hsize; try lia.
  reflexivity.
Qed.

Lemma DDPM_sample_rejects_long_size_witness :
  Shape.DDPM_sample (Shape.Unet_forward 1 256) 600 10 [1; 1; 28; 28]%nat = None.
Proof.
  apply (DDPM_sample_rejects_long_size (Shape.Unet_forward 1 256) 600 10
           [1; 1; 28; 28]%nat); simpl; lia.
Defined.

(** ** The blocks of the network, one by one *)

(** X16: on a batch of n >= 1 images with more than one value per channel
    (n * h * w other than 1, which batch norm needs in training mode),
    [ResidualConvBlock(in_channels, out_channels, is_res)] returns, with
    or without the residual path, exactly when the images have in_channels
    channels and at least one row and one column, and it keeps their
    height and width. *)
Theorem ResidualConvBlock_accepts (in_channels out_channels : nat) (is_res : bool)
        (n c h w : nat) :
  (1 <= n)%nat -> (n * h * w <> 1)%nat ->
  (forall s, Shape.ResidualConvBlock in_channels out_channels is_res [n; c; h; w] = Some s ->
             s = [n; out_channels; h; w]) /\
  ((exists s, Shape.ResidualConvBlock in_channels out_channels is_res [n; c; h; w] = Some s)
   <-> c = in_channels /\ (1 <= h)%nat /\ (1 <= w)%nat).
Proof.
  intros _ _. split; [|split].
  - intros s E. now destruct (ResidualConvBlock_inv _ _ _ _ _ _ _ _ E) as (_ & _ & _ & ->).
  - intros [s E]. destruct (ResidualConvBlock_inv _ _ _ _ _ _ _ _ E) as (? & ? & ? & _).
    tauto.
  - intros (Hc & Hh & Hw). eexists. now apply ResidualConvBlock_shape.
Qed.

Lemma ResidualConvBlock_accepts_witness :
  (forall s, Shape.ResidualConvBlock 1 128 true [2; 1; 28; 28]%nat = Some s ->
             s = [2; 128; 28; 28]%nat) /\
  ((exists s, Shape.ResidualConvBlock 1 128 true [2; 1; 28; 28]%nat = Some s)
   <-> 1%nat = 1%nat /\ (1 <= 28)%nat /\ (1 <= 28)%nat).
Proof.
  apply (ResidualConvBlock_accepts 1 128 true 2 1 28 28); lia.
Defined.

Lemma half_rounded_down (h : nat) : (2 <= h)%nat -> ((h - 2) / 2 + 1 = h / 2)%nat.
Proof.
  intros H.
  pose proof (Nat.div_mod_eq (h - 2) 2). pose proof (Nat.mod_upper_bound (h - 2) 2 ltac:(lia)).
  pose proof (Nat.div_mod_eq h 2). pose proof (Nat.mod_upper_bound h 2 ltac:(lia)).
  lia.
Qed.

(** X17: [UnetDown] returns exactly on images of in_channels channels with at
    least two rows and two columns, and halves their height and width,
    rounding down. *)
Theorem UnetDown_halves (in_channels out_channels n c h w : nat) :
  (forall s, Shape.UnetDown in_channels out_channels [n; c; h; w] = Some s ->
             s = [n; out_channels; (h / 2)%nat; (w / 2)%nat]) /\
  ((exists s, Shape.UnetDown in_channels out_channels [n; c; h; w] = Some s)
   <-> c = in_channels /\ (2 <= h)%nat /\ (2 <= w)%nat).
Proof.
  split; [|split].
  - intros s E. destruct (UnetDown_inv _ _ _ _ _ _ _ E) as (_ & Hh & Hw & ->).
    now rewrite !half_rounded_down by assumption.
  - intros [s E]. destruct (UnetDown_inv _ _ _ _ _ _ _ E) as (? & ? & ? & _). tauto.
  - intros (Hc & Hh & Hw). eexists. now apply UnetDown_shape.
Qed.

(** X18: [UnetUp] returns exactly when [x] and [skip] agree in batch size,
    height and width, are not empty, and their channels add up to
    in_channels; it doubles the height and the width. *)
Theorem UnetUp_doubles (in_channels out_channels n c h w n' c' h' w' : nat) :
  (forall s, Shape.UnetUp in_channels out_channels [n; c; h; w] [n'; c'; h'; w'] = Some s ->
             s = [n; out_channels; (2 * h)%nat; (2 * w)%nat]) /\
  ((exists s, Shape.UnetUp in_channels out_channels [n; c; h; w] [n'; c'; h'; w'] = Some s)
   <-> n = n' /\ h = h' /\ w = w' /\ (c + c')%nat = in_channels /\
       (0 < h)%nat /\ (0 < w)%nat).
Proof.
  split; [|split].
  - intros s E. destruct (UnetUp_inv _ _ _ _ _ _ _ _ _ _ _ E)
      as (_ & _ & _ & _ & Hh & Hw & ->).
    replace ((h - 1) * 2 + 2)%nat with (2 * h)%nat by lia.
    now replace ((w - 1) * 2 + 2)%nat with (2 * w)%nat by lia.
  - intros [s E]. destruct (UnetUp_inv _ _ _ _ _ _ _ _ _ _ _ E)
      as (? & ? & ? & ? & ? & ? & _). tauto.
  - intros (<- & <- & <- & Hc & Hh & Hw). eexists. now apply UnetUp_shape.
Qed.

(** X19: on a contiguous tensor, as [Unet.forward] passes it,
    [EmbedFC(input_dim, emb_dim)] returns exactly when the number of
    entries of the tensor is a multiple of a positive input_dim, and it
    returns one row of emb_dim features per input_dim entries. *)
Theorem EmbedFC_flattens (input_dim emb_dim : nat) (x : Shape.shape) :
  (forall s, Shape.EmbedFC input_dim emb_dim x = Some s ->
             s = [(Shape.numel x / input_dim)%nat; emb_dim]) /\
  ((exists s, Shape.EmbedFC input_dim emb_dim x = Some s)
   <-> (0 < input_dim)%nat /\ (Shape.numel x mod input_dim = 0)%nat).
Proof.
  unfold Shape.EmbedFC, Shape.view_infer, Shape.Linear, Shape.GELU.
  cbn [Shape.numel fold_right]. rewrite Nat.mul_1_r.
  destruct (Nat.eqb_spec input_dim 0) as [->|Hi].
  - split; [discriminate|]. split; [intros [s E]; discriminate | lia].
  - destruct (Nat.eqb_spec (Shape.numel x mod input_dim) 0) as [Hm|Hm].
    + cbn [obind rev app]. rewrite !Nat.eqb_refl. cbn [obind rev app].
      rewrite !Nat.eqb_refl. cbn [rev app].
      split; [intros s E; now injection E as <-|].
      split; [lia | eexists; reflexivity].
    + split; [discriminate|]. split; [intros [s E]; discriminate | lia].
Qed.

(** ** The residual block, when it does not add its input *)

(** X20: Without the residual path, or with different channel counts, a
    residual block reads its input only through conv1: two inputs on
    which conv1 agrees give the same output. *)
Theorem ResidualConvBlock_reads_through_conv1
        (in_channels out_channels : nat) (res : bool)
        (stack1 stack2 : batch -> option batch) (x x' : batch) :
  res = false \/ in_channels <> out_channels ->
  stack1 x = stack1 x' ->
  ResidualConvBlock_forward
    (ResidualConvBlock_init in_channels out_channels res stack1 stack2) x
  = ResidualConvBlock_forward
      (ResidualConvBlock_init in_channels out_channels res stack1 stack2) x'.
Proof.
  intros H E. unfold ResidualConvBlock_forward, ResidualConvBlock_init.
  cbn [is_res same_channels conv1 conv2].
  destruct res.
  - destruct H as [H|H]; [discriminate|].
    apply Nat.eqb_neq in H. rewrite H, E. reflexivity.
  - rewrite E. reflexivity.
Qed.

Lemma ResidualConvBlock_reads_through_conv1_witness :
  ResidualConvBlock_forward
    (ResidualConvBlock_init 1 2 true (fun _ => Some [[1; 1]]) (fun y => Some y)) [[3]]
  = ResidualConvBlock_forward
      (ResidualConvBlock_init 1 2 true (fun _ => Some [[1; 1]]) (fun y => Some y)) [[5]].
Proof.
  apply (ResidualConvBlock_reads_through_conv1 1 2 true
           (fun _ => Some [[1; 1]]) (fun y => Some y) [[3]] [[5]]);
    [right; discriminate | reflexivity].
Defined.
